(** * TAPIR client: the transaction coordinator of store/tapir/client.cc

    A shallow embedding of [tapir::Client] (Begin, Get, Put, Prepare,
    Commit, Abort) as programs of a small state-and-panic monad.

    - The state is the coordinator's fields ([Client]) and the outside
      world as driven so far ([World]): the log of everything the
      coordinator asked of a shard facade, a handle or the clock.
    - What the outside world answers is read from an environment [Env]:
      the readings of the clock, what each handle resolves to, and the
      content of the two locals that the source reads uninitialised.
      The properties hold for every environment.
    - [ASSERT] and [NOT_IMPLEMENTED] stop the run in [Fatal], which keeps
      the state reached.
    - [uint64_t] and [int] values are in [Z]; the only arithmetic on them
      is [t_id++], written with its wrap-around, and [retries++], which
      stays below COMMIT_RETRIES.
    - [Debug] lines and the [delete] of handles have no counterpart. *)

From stdpp Require Import base decidable numbers option list sets gmap strings sorting.

#[local] Set Warnings "-clear-no-such-hyp".

Local Open Scope Z_scope.

(** ** Data model *)

(** Reply codes of a pending call.  The source switches over an [int];
    [REPLY_OTHER] stands for every value outside the four named codes,
    the [default:] branch of the switch in [Client::Prepare]. *)
Inductive Reply : Set :=
  | REPLY_OK
  | REPLY_FAIL
  | REPLY_RETRY
  | REPLY_TIMEOUT
  | REPLY_OTHER.

#[global] Instance Reply_eq_dec : EqDecision Reply.
Proof. solve_decision. Defined.

(** The four codes of the protocol. *)
Definition known_reply (r : Reply) : bool :=
  match r with
  | REPLY_OTHER => false
  | _ => true
  end.

(** Modelled from the spec: the [Timestamp] class is declared outside
    client.cc; the spec describes it as the pair (physical-time value,
    client identifier).  [getTimestamp] reads the time, [setTimestamp]
    overwrites it and keeps the identifier. *)
Record Timestamp : Set := mkTimestamp { getTimestamp : Z; getID : Z }.

Definition setTimestamp (t : Z) (ts : Timestamp) : Timestamp :=
  mkTimestamp t (getID ts).

#[global] Instance Timestamp_eq_dec : EqDecision Timestamp.
Proof. solve_decision. Defined.

(** The four kinds of call that hand a [Promise] to a shard facade. *)
Inductive Op : Set := OpGet | OpPut | OpPrepare | OpAbort.

#[global] Instance Op_eq_dec : EqDecision Op.
Proof. solve_decision. Defined.

(** What a pending call eventually resolves to: a reply code (TIMEOUT
    when the deadline passes first), a timestamp and a value. *)
Record Resolution : Set := mkResolution {
  r_reply : Reply;
  r_timestamp : Timestamp;
  r_value : string
}.

(** Modelled from the spec: the Pending-Call Handle ([Promise], declared
    outside client.cc) holds a deadline and eventually resolves to a
    reply code plus an optional value/timestamp.  [p_op] and [p_shard]
    remember which call on which facade the handle was given to. *)
Record Promise : Set := mkPromise {
  p_op : Op;
  p_shard : Z;
  p_timeout : Z;
  p_res : Resolution
}.

(** Everything the coordinator does to the outside world, in order. *)
Inductive Event : Set :=
  | EvBegin (shard tid : Z)              (* bclient[shard]->Begin(tid) *)
  | EvGet (shard : Z) (key : string)     (* bclient[shard]->Get(key, &promise) *)
  | EvPut (shard : Z) (key value : string)
  | EvPrepare (shard : Z) (ts : Timestamp)
  | EvCommit (shard : Z) (arg : Z)       (* bclient[shard]->Commit(arg) *)
  | EvAbort (shard : Z)
  | EvWait (op : Op) (shard : Z)         (* a blocking read of a Promise *)
  | EvClock (now : Z).                   (* timeServer.GetTime() *)

#[global] Instance Event_eq_dec : EqDecision Event.
Proof. solve_decision. Defined.

(** The member variables of [tapir::Client] that client.cc reads and
    writes.  [client_id] and [t_id] are [uint64_t]; [participants] is
    the set of shard indices of the running transaction. *)
Record Client : Type := mkClient {
  client_id : Z;
  t_id : Z;
  nshards : Z;
  participants : gset Z;
  retries : Z
}.

(** [Client::Client]: the fields once the constructor has drawn the
    random non-zero identifier [id].  It leaves [retries] alone; Commit
    sets it before it reads it. *)
Definition new_Client (id nShards : Z) : Client :=
  mkClient id (id / 10000 * 10000) nShards ∅ 0.

(** The outside world as the coordinator has driven it so far: the log
    of events and how many Prepare rounds, clock readings and other
    pending calls have been started. *)
Record World : Type := mkWorld {
  log : list Event;
  rounds : nat;
  ticks : nat;
  calls : nat
}.

Record State : Type := mkState { client : Client; world : World }.

(** The answers of the outside world. *)
Record Env : Type := mkEnv {
  (** the n-th reading of [timeServer.GetTime()] *)
  clock : nat → Z;
  (** what the Prepare handle given to shard [p] in the k-th Prepare
      round resolves to *)
  votes : nat → Z → Resolution;
  (** what the n-th Get, Put or Abort handle resolves to *)
  answers : nat → Resolution;
  (** the indeterminate content of the local [uint64_t ts] of the k-th
      Prepare round, which the source never initialises *)
  stack_ts : nat → Z;
  (** the indeterminate content of the local [int status] of Commit *)
  stack_status : Reply
}.

(** The two fatal stops of client.cc. *)
Inductive Panic : Set := AssertFailed | NotImplemented.

#[global] Instance Panic_eq_dec : EqDecision Panic.
Proof. solve_decision. Defined.

(** ** The monad: state passing, with fatal stops that keep the state *)

Inductive Outcome (A : Type) : Type :=
  | Done (a : A) (st : State)
  | Fatal (why : Panic) (st : State).
Arguments Done {A} a st.
Arguments Fatal {A} why st.

Definition M (A : Type) : Type := State → Outcome A.

Definition ret {A} (a : A) : M A := fun st => Done a st.

Definition bind {A B} (m : M A) (k : A → M B) : M B :=
  fun st =>
    match m st with
    | Done a st' => k a st'
    | Fatal why st' => Fatal why st'
    end.

Declare Scope tapir_scope.
Delimit Scope tapir_scope with tapir.
Notation "' x ← y ; z" := (bind y (fun x => z)) : tapir_scope.
Notation "x ← y ; z" := (bind y (fun x => z)) : tapir_scope.
Notation "x ;; z" := (bind x (fun _ => z)) : tapir_scope.
Local Open Scope tapir_scope.

Definition panic {A} (why : Panic) : M A := fun st => Fatal why st.

Definition get_client : M Client := fun st => Done (client st) st.

Definition put_client (c : Client) : M unit :=
  fun st => Done tt (mkState c (world st)).

Definition get_world : M World := fun st => Done (world st) st.

Definition put_world (w : World) : M unit :=
  fun st => Done tt (mkState (client st) w).

(** The state an outcome stops in, and the value it returns, if any. *)
Definition final {A} (o : Outcome A) : State :=
  match o with
  | Done _ st => st
  | Fatal _ st => st
  end.

Definition returned {A} (o : Outcome A) : option A :=
  match o with
  | Done a _ => Some a
  | Fatal _ _ => None
  end.

(** Field updates of the coordinator. *)
Definition set_t_id (v : Z) (c : Client) : Client :=
  mkClient (client_id c) v (nshards c) (participants c) (retries c).
Definition set_participants (s : gset Z) (c : Client) : Client :=
  mkClient (client_id c) (t_id c) (nshards c) s (retries c).
Definition set_retries (v : Z) (c : Client) : Client :=
  mkClient (client_id c) (t_id c) (nshards c) (participants c) v.

(** Append one event to the log. *)
Definition emit (e : Event) : M unit :=
  w ← get_world;
  put_world (mkWorld (log w ++ [e]) (rounds w) (ticks w) (calls w)).

(** Modelled from the spec: [ASSERT] and [NOT_IMPLEMENTED] are macros
    defined outside client.cc; the spec says a violated invariant and an
    unexpected reply code both fail fatally. *)
Definition ASSERT (b : bool) : M unit :=
  if b then ret tt else panic AssertFailed.

Definition NOT_IMPLEMENTED {A} : M A := panic NotImplemented.

(** A [for (auto x : l)] loop whose body may [return] from the enclosing
    function: the body yields [inl s] to go on with loop state [s] and
    [inr r] to return [r] at once. *)
Fixpoint for_each {A S R} (l : list A) (body : A → S → M (S + R)) (s : S)
  : M (S + R) :=
  match l with
  | [] => ret (inl s)
  | x :: l' =>
      o ← body x s;
      match o with
      | inl s' => for_each l' body s'
      | inr r => ret (inr r)
      end
  end.

(** A loop without [return]: one action per element. *)
Fixpoint for_all {A B} (l : list A) (body : A → M B) : M (list B) :=
  match l with
  | [] => ret []
  | x :: l' =>
      b ← body x;
      bs ← for_all l' body;
      ret (b :: bs)
  end.

(** A [std::set<int>] is walked in ascending order. *)
Definition in_order (s : gset Z) : list Z := merge_sort Z.le (elements s).

(** [uint64_t] increment. *)
Definition incr64 (x : Z) : Z := (x + 1) mod 2 ^ 64.

(** ** Events and logs *)
(** The shard an event is addressed to, if any. *)
Definition target (e : Event) : option Z :=
  match e with
  | EvBegin p _ | EvGet p _ | EvPut p _ _ | EvPrepare p _
  | EvCommit p _ | EvAbort p | EvWait _ p => Some p
  | EvClock _ => None
  end.

(** An event that stays within the shard set [P]. *)
Definition within (P : gset Z) (e : Event) : Prop :=
  ∀ p, target e = Some p → p ∈ P.

(** The shards that are sent a Prepare request, in the order of the
    requests. *)
Definition prepared (e : Event) : option Z :=
  match e with
  | EvPrepare p _ => Some p
  | _ => None
  end.

Definition prepares (evs : list Event) : list Z := omap prepared evs.

(** A Get or a Put sent to shard [p]. *)
Definition access (p : Z) (e : Event) : Prop :=
  match e with
  | EvGet q _ | EvPut q _ _ => q = p
  | _ => False
  end.

(** The state after the outside world has seen the events [evs], [dr]
    more Prepare rounds, [dt] more clock readings and [dc] more pending
    calls; the coordinator's own fields are as before. *)
Definition advance (evs : list Event) (dr dt dc : nat) (st : State) : State :=
  mkState (client st)
    (mkWorld (log (world st) ++ evs) (dr + rounds (world st))
       (dt + ticks (world st)) (dc + calls (world st))).

(** The state with more events in its log and nothing else changed. *)
Definition log_add (evs : list Event) (st : State) : State :=
  advance evs 0 0 0 st.

(** ** Vocabulary of the traces *)

(** The traffic of the vote collection: Prepare requests, waits on
    Prepare handles and readings of the clock. *)
Definition vote_traffic (e : Event) : Prop :=
  match e with
  | EvPrepare _ _ | EvWait OpPrepare _ | EvClock _ => True
  | _ => False
  end.

(** The two blocking reads, [GetTimestamp] and [GetReply], on the handle
    of each shard of [ps] in turn. *)
Definition waits_of (op : Op) (ps : list Z) : list Event :=
  ps ≫= (λ p, [EvWait op p; EvWait op p]).

(** The shards that a stretch of the log sends a Begin to. *)
Definition begun_shard (e : Event) : option Z :=
  match e with
  | EvBegin p _ => Some p
  | _ => None
  end.

Definition begun_set (evs : list Event) : gset Z :=
  list_to_set (omap begun_shard evs).

(** The order in which a transaction meets its shards: with [seen] the
    shards begun so far, every Begin goes to a shard not begun yet and
    carries the transaction id [tid], and every Get and Put goes to a
    shard begun before. *)
Fixpoint disciplined (seen : gset Z) (tid : Z) (evs : list Event) : Prop :=
  match evs with
  | [] => True
  | EvBegin p t :: evs' =>
      t = tid ∧ (p ∉ seen) ∧ disciplined ({[p]} ∪ seen) tid evs'
  | EvGet p _ :: evs' | EvPut p _ _ :: evs' =>
      p ∈ seen ∧ disciplined seen tid evs'
  | _ :: evs' => disciplined seen tid evs'
  end.

(** Every Prepare request carries the client identifier [id] and the
    latest reading of the clock, [cur] before the first reading. *)
Fixpoint stamped (id cur : Z) (evs : list Event) : Prop :=
  match evs with
  | [] => True
  | EvClock now :: evs' => stamped id now evs'
  | EvPrepare _ ts :: evs' => ts = mkTimestamp cur id ∧ stamped id cur evs'
  | _ :: evs' => stamped id cur evs'
  end.

(** The latest reading of the clock in a stretch of the log. *)
Fixpoint clock_after (cur : Z) (evs : list Event) : Z :=
  match evs with
  | [] => cur
  | EvClock now :: evs' => clock_after now evs'
  | _ :: evs' => clock_after cur evs'
  end.

(** The loop of [Client::Client] that draws the client identifier:
    [draws i] is the i-th value of the random source, the loop goes on
    while the value is 0.  [fuel] bounds the number of draws. *)
Fixpoint draw_client_id (draws : nat → Z) (i fuel : nat) : option Z :=
  match fuel with
  | O => None
  | S fuel' =>
      let id := draws i in
      if decide (id = 0) then draw_client_id draws (S i) fuel' else Some id
  end.

(** [Client::Client], as far as the fields of the coordinator go. *)
Definition Client_new (draws : nat → Z) (fuel : nat) (nShards : Z)
  : option Client :=
  (λ id, new_Client id nShards) <$> draw_client_id draws 0 fuel.

(** ** Concrete worlds and coordinators *)

Module Scenario.

(** A handle that resolves to the reply code [r] and the time [t]. *)
Definition resolves (r : Reply) (t : Z) : Resolution :=
  mkResolution r (mkTimestamp t 0) "".

(** The coordinator of client 70001 in the middle of a transaction that
    has touched the shards [P], in a world where nothing has happened
    yet. *)
Definition coordinator (P : gset Z) : State :=
  mkState (set_participants P (new_Client 70001 3)) (mkWorld [] 0 0 0).

(** A world whose clock always reads [now] and in which shard [p]
    answers every Prepare with [v p]; Get, Put and Abort handles
    resolve to OK; the uninitialised locals hold 7 and a code that is
    none of the four. *)
Definition world_of (now : Z) (v : Z → Resolution) : Env :=
  mkEnv (λ _, now) (λ _, v) (λ _, resolves REPLY_OK 0) (λ _, 7) REPLY_OTHER.

(** Every shard accepts. *)
Definition accepting : Env := world_of 80 (λ _, resolves REPLY_OK 0).

(** Scenario B of the specification: shard 0 votes OK, shard 1 FAIL. *)
Definition B : Env :=
  world_of 80
    (λ p, if decide (p = 1) then resolves REPLY_FAIL 0 else resolves REPLY_OK 0).

(** Scenario C of the specification: shard 0 votes RETRY and proposes
    100, shard 1 votes RETRY and proposes 50, the clock reads 80. *)
Definition C : Env :=
  world_of 80
    (λ p, if decide (p = 0) then resolves REPLY_RETRY 100
          else resolves REPLY_RETRY 50).

(** Scenario D of the specification: every shard times out on every
    attempt. *)
Definition D : Env := world_of 80 (λ _, resolves REPLY_TIMEOUT 0).

(** Shard 0 votes OK, shard 1 times out. *)
Definition slow : Env :=
  world_of 80
    (λ p, if decide (p = 1) then resolves REPLY_TIMEOUT 0
          else resolves REPLY_OK 0).

End Scenario.

(** More worlds. *)
Module Worlds.

(** Scenario C with other proposals (5 and 7 instead of 100 and 50),
    other resolutions of the Get, Put and Abort handles and other
    contents of the uninitialised locals; the clock and the reply codes
    of the votes are those of scenario C. *)
Definition C_other : Env :=
  mkEnv (λ _, 80)
    (λ _ p, if decide (p = 0) then Scenario.resolves REPLY_RETRY 5
            else Scenario.resolves REPLY_RETRY 7)
    (λ _, Scenario.resolves REPLY_TIMEOUT 3) (λ _, 2 ^ 63) REPLY_OK.

(** Shards 0 and 1 vote OK; shard 2 votes FAIL; shard 3 answers with a
    code that is none of the four. *)
Definition mixed : Env :=
  Scenario.world_of 80
    (λ p, if decide (p = 2) then Scenario.resolves REPLY_FAIL 0
          else if decide (p = 3) then Scenario.resolves REPLY_OTHER 0
          else Scenario.resolves REPLY_OK 0).

(** A random source whose first two values are 0 and whose third value
    is 1234567. *)
Definition draws (i : nat) : Z :=
  match i with
  | 0%nat | 1%nat => 0
  | _ => 1234567
  end.

(** Shard 1 votes FAIL; shards 0 and 2 answer with a code that is none
    of the four. *)
Definition garbled : Env :=
  Scenario.world_of 80
    (λ p, if decide (p = 1) then Scenario.resolves REPLY_FAIL 0
          else Scenario.resolves REPLY_OTHER 0).

End Worlds.

(** ** The coordinator *)

Section Coordinator.

(** The answers of the outside world during the run. *)
Variable env : Env.

(** The shard router and the constants of the headers, none of which
    client.cc defines. *)
Variable key_to_shard : string → Z → Z.
Variable COMMIT_RETRIES : Z.
Variables GET_TIMEOUT PUT_TIMEOUT PREPARE_TIMEOUT ABORT_TIMEOUT : Z.

(** [timeServer.GetTime()]: the next reading of the clock. *)
Definition GetTime : M Z :=
  w ← get_world;
  let now := clock env (ticks w) in
  put_world (mkWorld (log w ++ [EvClock now]) (rounds w) (S (ticks w)) (calls w));;
  ret now.

(** [Promise promise(timeout)] for a Get, Put or Abort call: the next
    handle, with what the outside world will resolve it to. *)
Definition new_Promise (op : Op) (shard timeout : Z) : M Promise :=
  w ← get_world;
  put_world (mkWorld (log w) (rounds w) (ticks w) (S (calls w)));;
  ret (mkPromise op shard timeout (answers env (calls w))).

(** The number of the Prepare round that starts now. *)
Definition new_round : M nat :=
  w ← get_world;
  put_world (mkWorld (log w) (S (rounds w)) (ticks w) (calls w));;
  ret (rounds w).

(** The accessors of a [Promise] block until the handle is resolved. *)
Definition GetReply (p : Promise) : M Reply :=
  emit (EvWait (p_op p) (p_shard p));;
  ret (r_reply (p_res p)).

Definition GetValue (p : Promise) : M string :=
  emit (EvWait (p_op p) (p_shard p));;
  ret (r_value (p_res p)).

Definition GetTimestamp (p : Promise) : M Timestamp :=
  emit (EvWait (p_op p) (p_shard p));;
  ret (r_timestamp (p_res p)).

(** [Client::Begin] *)
Definition Begin : M unit :=
  c ← get_client;
  put_client (set_t_id (incr64 (t_id c)) c);;
  c ← get_client;
  put_client (set_participants ∅ c).

(** [Client::Get]: returns the reply code and the value written to the
    out parameter. *)
Definition Get (key : string) : M (Reply * string) :=
  c ← get_client;
  let i := key_to_shard key (nshards c) in
  (if decide (i ∈ participants c) then ret tt
   else
     put_client (set_participants ({[i]} ∪ participants c) c);;
     emit (EvBegin i (t_id c)));;
  promise ← new_Promise OpGet i GET_TIMEOUT;
  emit (EvGet i key);;
  value ← GetValue promise;
  reply ← GetReply promise;
  ret (reply, value).

(** [Client::Put] *)
Definition Put (key value : string) : M Reply :=
  c ← get_client;
  let i := key_to_shard key (nshards c) in
  (if decide (i ∈ participants c) then ret tt
   else
     put_client (set_participants ({[i]} ∪ participants c) c);;
     emit (EvBegin i (t_id c)));;
  promise ← new_Promise OpPut i PUT_TIMEOUT;
  emit (EvPut i key value);;
  GetReply promise.

(** The first loop of [Client::Prepare]: one handle and one request
    per participant of the round [k]. *)
Definition send_prepares (k : nat) (timestamp : Timestamp) (ps : list Z)
  : M (list Promise) :=
  for_all ps (fun p =>
    let promise := mkPromise OpPrepare p PREPARE_TIMEOUT (votes env k p) in
    emit (EvPrepare p timestamp);;
    ret promise).

(** The body of the second loop of [Client::Prepare].  The local
    [proposed] of the body hides the [proposed] of the function. *)
Definition tally (p : Promise) (acc : Reply * Z) : M (Reply * Z + Reply) :=
  let '(status, ts) := acc in
  t ← GetTimestamp p;
  let proposed := getTimestamp t in
  reply ← GetReply p;
  match reply with
  | REPLY_OK => ret (inl (status, ts))
  | REPLY_FAIL => ret (inr REPLY_FAIL)
  | REPLY_RETRY =>
      ret (inl (REPLY_RETRY, if proposed >? ts then proposed else ts))
  | REPLY_TIMEOUT => ret (inl (REPLY_RETRY, ts))
  | REPLY_OTHER => NOT_IMPLEMENTED
  end.

(** [Client::Prepare]: returns the status and the in/out timestamp. *)
Definition Prepare (timestamp : Timestamp) : M (Reply * Timestamp) :=
  let proposed := 0 in
  c ← get_client;
  ASSERT (Z.of_nat (size (participants c)) >? 0);;
  k ← new_round;
  promises ← send_prepares k timestamp (in_order (participants c));
  let status := REPLY_OK in
  let ts := stack_ts env k in
  r ← for_each promises tally (status, ts);
  match r with
  | inr status => ret (status, timestamp)
  | inl (status, ts) =>
      if decide (status = REPLY_RETRY) then
        now ← GetTime;
        (if now >? proposed
         then ret (status, setTimestamp now timestamp)
         else ret (status, setTimestamp proposed timestamp))
      else ret (status, timestamp)
  end.

(** [Client::Abort] *)
Definition Abort : M unit :=
  c ← get_client;
  promises ← for_all (in_order (participants c)) (fun p =>
    promise ← new_Promise OpAbort p ABORT_TIMEOUT;
    emit (EvAbort p);;
    ret promise);
  for_all promises GetReply;;
  ret tt.

(** The retry loop of [Client::Commit] with [n] iterations left, that
    is [n = COMMIT_RETRIES - retries]. *)
Fixpoint retry_loop (n : nat) (status : Reply) (timestamp : Timestamp)
  : M (Reply * Timestamp) :=
  match n with
  | O => ret (status, timestamp)
  | S n' =>
      '(status, timestamp) ← Prepare timestamp;
      if decide (status = REPLY_RETRY) then
        c ← get_client;
        put_client (set_retries (retries c + 1) c);;
        retry_loop n' status timestamp
      else ret (status, timestamp)
  end.

(** [Client::Commit] *)
Definition Commit : M bool :=
  c ← get_client;
  now ← GetTime;
  let timestamp := mkTimestamp now (client_id c) in
  put_client (set_retries 0 c);;
  '(status, _) ← retry_loop (Z.to_nat (COMMIT_RETRIES - 0)) (stack_status env) timestamp;
  if decide (status = REPLY_OK) then
    c ← get_client;
    for_all (in_order (participants c)) (fun p => emit (EvCommit p 0));;
    ret true
  else
    Abort;;
    ret false.

(** A Get or a Put of the application, and a sequence of them. *)
Inductive Call : Set :=
  | CallGet (key : string)
  | CallPut (key value : string).

Definition call_key (c : Call) : string :=
  match c with
  | CallGet key => key
  | CallPut key _ => key
  end.

Definition run_call (c : Call) : M unit :=
  match c with
  | CallGet key => Get key;; ret tt
  | CallPut key value => Put key value;; ret tt
  end.

Fixpoint run_calls (cs : list Call) : M unit :=
  match cs with
  | [] => ret tt
  | c :: cs' => run_call c;; run_calls cs'
  end.

(** ** Vocabulary of the properties *)

(** The reply code of shard [p] in the Prepare round [k]. *)
Definition vote (k : nat) (p : Z) : Reply := r_reply (votes env k p).

(** The timestamp that shard [p] proposes in the Prepare round [k]. *)
Definition proposal (k : nat) (p : Z) : Z :=
  getTimestamp (r_timestamp (votes env k p)).

(** Rounds by their votes, over the participant set [P]. *)
Definition all_ok (k : nat) (P : gset Z) : Prop :=
  set_Forall (λ p, vote k p = REPLY_OK) P.
Definition some_fail (k : nat) (P : gset Z) : Prop :=
  set_Exists (λ p, vote k p = REPLY_FAIL) P.
Definition all_known (k : nat) (P : gset Z) : Prop :=
  set_Forall (λ p, known_reply (vote k p) = true) P.
Definition no_fail (k : nat) (P : gset Z) : Prop :=
  set_Forall (λ p, vote k p ≠ REPLY_FAIL) P.
(** Neither accepted nor rejected: no FAIL, only codes of the protocol,
    and at least one RETRY or TIMEOUT. *)
Definition undecided (k : nat) (P : gset Z) : Prop :=
  no_fail k P ∧ all_known k P ∧
  set_Exists (λ p, vote k p = REPLY_RETRY ∨ vote k p = REPLY_TIMEOUT) P.

(** A FAIL vote that Prepare gets to read in the round [k]: a
    participant votes FAIL and every participant before it in the order
    of the set answers with one of the four codes. *)
Definition fail_reached (k : nat) (P : gset Z) : Prop :=
  ∃ l1 p l2,
    in_order P = l1 ++ p :: l2 ∧
    Forall (λ q, known_reply (vote k q) = true) l1 ∧
    vote k p = REPLY_FAIL.

(** The handles of the Prepare round [k] over the shards [ps]. *)
Definition round_promises (k : nat) (ps : list Z) : list Promise :=
  (λ p, mkPromise OpPrepare p PREPARE_TIMEOUT (votes env k p)) <$> ps.

(** The reply codes that a list of handles resolves to. *)
Definition replies (promises : list Promise) : list Reply :=
  (λ p, r_reply (p_res p)) <$> promises.

(** The Abort round: one request per participant, then one wait per
    participant. *)
Definition abort_round (P : gset Z) : list Event :=
  (EvAbort <$> in_order P) ++ (EvWait OpAbort <$> in_order P).

(** The second loop of [Client::Prepare] on the reply codes alone:
    it falls through with a status, returns a status from inside the
    loop, or stops in [NOT_IMPLEMENTED]. *)
Inductive Tally : Set :=
  | Fell (status : Reply)
  | Returned (status : Reply)
  | Crashed.

Fixpoint count_votes (rs : list Reply) (status : Reply) : Tally :=
  match rs with
  | [] => Fell status
  | REPLY_OK :: rs' => count_votes rs' status
  | REPLY_FAIL :: _ => Returned REPLY_FAIL
  | REPLY_RETRY :: rs' => count_votes rs' REPLY_RETRY
  | REPLY_TIMEOUT :: rs' => count_votes rs' REPLY_RETRY
  | REPLY_OTHER :: _ => Crashed
  end.

(** ** Vocabulary of the traces, with the environment *)

(** The shards whose Prepare handle the second loop of Prepare reads in
    the round [k]: all of [ps] up to and including the first whose vote
    is FAIL or none of the four codes. *)
Fixpoint awaited (k : nat) (ps : list Z) : list Z :=
  match ps with
  | [] => []
  | p :: ps' =>
      p :: match vote k p with
           | REPLY_FAIL | REPLY_OTHER => []
           | _ => awaited k ps'
           end
  end.

(** What Get and Put send to the shard [i] before the operation itself:
    a Begin with the transaction id when the shard is new. *)
Definition hello (c : Client) (i : Z) : list Event :=
  if decide (i ∈ participants c) then [] else [EvBegin i (t_id c)].

(** [n] calls of Begin in a row. *)
Fixpoint begins (n : nat) : M unit :=
  match n with
  | O => ret tt
  | S n' => Begin;; begins n'
  end.

(** ** Running the monad *)

Lemma bind_done {A B} (m : M A) (k : A → M B) st a st' :
  m st = Done a st' → bind m k st = k a st'.
Proof. unfold bind. by intros ->. Qed.

Lemma bind_fatal {A B} (m : M A) (k : A → M B) st why st' :
  m st = Fatal why st' → bind m k st = Fatal why st'.
Proof. unfold bind. by intros ->. Qed.

Lemma advance_nil st : advance [] 0 0 0 st = st.
Proof.
  destruct st as [c [l r t n]]. unfold advance. simpl.
  by rewrite app_nil_r.
Qed.

Lemma advance_advance e1 r1 t1 c1 e2 r2 t2 c2 st :
  advance e2 r2 t2 c2 (advance e1 r1 t1 c1 st)
  = advance (e1 ++ e2) (r2 + r1) (t2 + t1) (c2 + c1) st.
Proof.
  unfold advance. simpl. rewrite <- app_assoc, !Nat.add_assoc. done.
Qed.

Lemma log_add_app a b st : log_add b (log_add a st) = log_add (a ++ b) st.
Proof. unfold log_add. by rewrite advance_advance. Qed.

Lemma emit_run e st : emit e st = Done tt (log_add [e] st).
Proof. done. Qed.

Lemma GetReply_run p st :
  GetReply p st
  = Done (r_reply (p_res p)) (log_add [EvWait (p_op p) (p_shard p)] st).
Proof. done. Qed.

Lemma GetTimestamp_run p st :
  GetTimestamp p st
  = Done (r_timestamp (p_res p)) (log_add [EvWait (p_op p) (p_shard p)] st).
Proof. done. Qed.

Lemma GetTime_run st :
  GetTime st
  = Done (clock env (ticks (world st)))
      (advance [EvClock (clock env (ticks (world st)))] 0 1 0 st).
Proof. done. Qed.

Lemma new_round_run st :
  new_round st = Done (rounds (world st)) (advance [] 1 0 0 st).
Proof.
  unfold new_round, advance, bind, get_world, put_world, ret. simpl.
  by rewrite app_nil_r.
Qed.

(** The first loop of Prepare sends one request per shard, in order. *)
Lemma send_prepares_run k timestamp ps st :
  send_prepares k timestamp ps st
  = Done (round_promises k ps)
      (log_add ((λ p, EvPrepare p timestamp) <$> ps) st).
Proof.
  revert st. induction ps as [|p ps IH]; intros st.
  - unfold log_add. by rewrite advance_nil.
  - unfold send_prepares in *. cbn [for_all].
    erewrite bind_done; [|by erewrite bind_done; [|apply emit_run]].
    erewrite bind_done; [|apply IH].
    unfold ret. by rewrite log_add_app.
Qed.

(** One turn of the second loop of Prepare. *)
Lemma tally_run p status ts st :
  let st' := log_add [EvWait (p_op p) (p_shard p); EvWait (p_op p) (p_shard p)] st in
  tally p (status, ts) st =
    match r_reply (p_res p) with
    | REPLY_OK => Done (inl (status, ts)) st'
    | REPLY_FAIL => Done (inr REPLY_FAIL) st'
    | REPLY_RETRY =>
        Done (inl (REPLY_RETRY,
                   if getTimestamp (r_timestamp (p_res p)) >? ts
                   then getTimestamp (r_timestamp (p_res p)) else ts)) st'
    | REPLY_TIMEOUT => Done (inl (REPLY_RETRY, ts)) st'
    | REPLY_OTHER => Fatal NotImplemented st'
    end.
Proof.
  unfold tally.
  erewrite bind_done; [|apply GetTimestamp_run].
  erewrite bind_done; [|apply GetReply_run].
  rewrite log_add_app. by destruct (r_reply (p_res p)).
Qed.

(** The second loop of Prepare follows [count_votes] on the reply
    codes; it only waits, and only on the handles it was given. *)
Lemma tally_loop_run promises status ts st :
  ∃ evs,
    Forall (λ e, ∃ p, p ∈ promises ∧ e = EvWait (p_op p) (p_shard p)) evs ∧
    match count_votes (replies promises) status with
    | Fell s =>
        ∃ ts', for_each promises tally (status, ts) st
               = Done (inl (s, ts')) (log_add evs st)
    | Returned s =>
        for_each promises tally (status, ts) st = Done (inr s) (log_add evs st) ∧
        ∃ evs' q,
          evs = evs' ++ [EvWait (p_op q) (p_shard q)] ∧
          q ∈ promises ∧ r_reply (p_res q) = REPLY_FAIL
    | Crashed =>
        for_each promises tally (status, ts) st
        = Fatal NotImplemented (log_add evs st)
    end.
Proof.
  revert status ts st.
  induction promises as [|p promises IH]; intros status ts st.
  - exists []. split; [constructor|]. simpl. exists ts.
    unfold log_add. by rewrite advance_nil.
  - pose proof (tally_run p status ts st) as Hp. simpl in Hp.
    set (w := [EvWait (p_op p) (p_shard p); EvWait (p_op p) (p_shard p)]) in *.
    assert (Hw : Forall (λ e, ∃ q, q ∈ p :: promises
                                ∧ e = EvWait (p_op q) (p_shard q)) w).
    { repeat constructor; exists p; split; (constructor || done). }
    assert (Hmore : ∀ evs,
      Forall (λ e, ∃ q, q ∈ promises ∧ e = EvWait (p_op q) (p_shard q)) evs →
      Forall (λ e, ∃ q, q ∈ p :: promises
                     ∧ e = EvWait (p_op q) (p_shard q)) (w ++ evs)).
    { intros evs Hevs. apply Forall_app. split; [done|].
      eapply Forall_impl; [exact Hevs|].
      intros e (q & Hq & ->). exists q. split; [by constructor|done]. }
    assert (Hstep : ∀ status' ts',
      tally p (status, ts) st = Done (inl (status', ts')) (log_add w st) →
      ∃ evs,
        Forall (λ e, ∃ q, q ∈ p :: promises
                       ∧ e = EvWait (p_op q) (p_shard q)) evs ∧
        match count_votes (replies promises) status' with
        | Fell s =>
            ∃ ts'', for_each (p :: promises) tally (status, ts) st
                    = Done (inl (s, ts'')) (log_add evs st)
        | Returned s =>
            for_each (p :: promises) tally (status, ts) st
            = Done (inr s) (log_add evs st) ∧
            ∃ evs' q,
              evs = evs' ++ [EvWait (p_op q) (p_shard q)] ∧
              q ∈ p :: promises ∧ r_reply (p_res q) = REPLY_FAIL
        | Crashed =>
            for_each (p :: promises) tally (status, ts) st
            = Fatal NotImplemented (log_add evs st)
        end).
    { intros status' ts' Hp'.
      destruct (IH status' ts' (log_add w st)) as (evs & Hevs & Hrun).
      exists (w ++ evs). split; [by apply Hmore|].
      cbn [for_each]. erewrite bind_done; [|exact Hp'].
      rewrite log_add_app in Hrun.
      destruct (count_votes (replies promises) status') as [s0|s0|];
        [exact Hrun| |exact Hrun].
      destruct Hrun as (Hrun & evs' & q & -> & Hq & Hfq).
      split; [exact Hrun|]. exists (w ++ evs'), q.
      split; [by rewrite app_assoc|]. split; [by right|done]. }
    cbn [replies fmap list_fmap count_votes].
    destruct (r_reply (p_res p)) eqn:Hr.
    + by apply (Hstep status ts).
    + exists w. split; [done|]. cbn [for_each]. split.
      * by erewrite bind_done; [|exact Hp].
      * exists [EvWait (p_op p) (p_shard p)], p.
        split; [done|]. split; [by left|done].
    + by eapply Hstep.
    + by apply (Hstep REPLY_RETRY ts).
    + exists w. split; [done|]. cbn [for_each].
      by erewrite bind_fatal; [|exact Hp].
Qed.

(** ** The participant set in order *)

Lemma in_order_elem (P : gset Z) p : p ∈ in_order P ↔ p ∈ P.
Proof. unfold in_order. by rewrite merge_sort_Permutation, elem_of_elements. Qed.

Lemma in_order_NoDup (P : gset Z) : NoDup (in_order P).
Proof. unfold in_order. rewrite merge_sort_Permutation. apply NoDup_elements. Qed.

Lemma in_order_empty : in_order ∅ = [].
Proof. done. Qed.

Lemma assert_participants (P : gset Z) :
  (Z.of_nat (size P) >? 0) = bool_decide (P ≠ ∅).
Proof.
  case_bool_decide as HP.
  - apply Z.gtb_lt.
    assert (size P ≠ 0%nat); [|lia].
    apply size_non_empty_iff. by intros ?%leibniz_equiv.
  - subst P. by rewrite size_empty.
Qed.

Lemma replies_round k ps : replies (round_promises k ps) = vote k <$> ps.
Proof. unfold replies, round_promises. by rewrite <- list_fmap_compose. Qed.

(** ** The vote count on reply codes *)

Lemma count_votes_all_ok rs s :
  Forall (λ r, r = REPLY_OK) rs → count_votes rs s = Fell s.
Proof. induction 1 as [|r rs -> _ IH]; [done|]. exact IH. Qed.

Lemma count_votes_fail rs s :
  Forall (λ r, known_reply r = true) rs → REPLY_FAIL ∈ rs →
  count_votes rs s = Returned REPLY_FAIL.
Proof.
  intros Hk. revert s. induction Hk as [|r rs Hr _ IH]; intros s Hin.
  - by apply elem_of_nil in Hin.
  - apply elem_of_cons in Hin as [<-|Hin]; [done|].
    destruct r; simpl; try done; by apply IH.
Qed.

Lemma count_votes_retry rs :
  Forall (λ r, r ≠ REPLY_FAIL ∧ known_reply r = true) rs →
  count_votes rs REPLY_RETRY = Fell REPLY_RETRY.
Proof.
  induction 1 as [|r rs [Hf Hk] _ IH]; [done|]. by destruct r.
Qed.

Lemma count_votes_undecided rs s :
  Forall (λ r, r ≠ REPLY_FAIL ∧ known_reply r = true) rs →
  Exists (λ r, r = REPLY_RETRY ∨ r = REPLY_TIMEOUT) rs →
  count_votes rs s = Fell REPLY_RETRY.
Proof.
  intros Hall. revert s. induction Hall as [|r rs [Hf Hk] Hall IH]; intros s Hex.
  - by apply Exists_nil in Hex.
  - apply Exists_cons in Hex as [[-> | ->]|Hex]; simpl;
      [by apply count_votes_retry..|].
    destruct r; try done; try by apply count_votes_retry. by apply IH.
Qed.

Lemma count_votes_fell rs s s' :
  count_votes rs s = Fell s' →
  Forall (λ r, r ≠ REPLY_FAIL ∧ known_reply r = true) rs ∧
  ((s' = s ∧ Forall (λ r, r = REPLY_OK) rs) ∨
   (s' = REPLY_RETRY ∧ Exists (λ r, r = REPLY_RETRY ∨ r = REPLY_TIMEOUT) rs)).
Proof.
  revert s. induction rs as [|r rs IH]; intros s H; simpl in H.
  - injection H as ->. split; [constructor|]. left. by split.
  - destruct r; try done.
    + destruct (IH _ H) as (Hall & [[-> Hok]|[-> Hex]]).
      * split; [by constructor|]. left. split; [done|by constructor].
      * split; [by constructor|]. right. split; [done|by right].
    + destruct (IH _ H) as (Hall & Hcase).
      split; [by constructor|]. right.
      split; [by destruct Hcase as [[-> _]|[-> _]]|left; by left].
    + destruct (IH _ H) as (Hall & Hcase).
      split; [by constructor|]. right.
      split; [by destruct Hcase as [[-> _]|[-> _]]|left; by right].
Qed.

Lemma count_votes_returned rs s s' :
  count_votes rs s = Returned s' → s' = REPLY_FAIL ∧ REPLY_FAIL ∈ rs.
Proof.
  revert s. induction rs as [|r rs IH]; intros s H; simpl in H; [done|].
  destruct r; try done;
    try (destruct (IH _ H) as [-> Hin]; split; [done|by right]).
  injection H as <-. split; [done|by left].
Qed.

Lemma count_votes_crashed rs s :
  count_votes rs s = Crashed → Exists (λ r, known_reply r = false) rs.
Proof.
  revert s. induction rs as [|r rs IH]; intros s H; simpl in H; [done|].
  destruct r; try done; try (right; by eapply IH). by left.
Qed.

(** The votes of a round, as a list in participant order and as
    statements over the participant set. *)
Lemma votes_Forall (Q : Reply → Prop) k (P : gset Z) :
  Forall Q (vote k <$> in_order P) ↔ set_Forall (λ p, Q (vote k p)) P.
Proof.
  rewrite Forall_fmap, Forall_forall. unfold set_Forall.
  split; intros H p Hp; apply H; by apply in_order_elem.
Qed.

Lemma votes_Exists (Q : Reply → Prop) k (P : gset Z) :
  Exists Q (vote k <$> in_order P) ↔ set_Exists (λ p, Q (vote k p)) P.
Proof.
  rewrite Exists_fmap, Exists_exists. unfold set_Exists.
  split; intros (p & Hp & HQ); exists p; (split; [|done]);
    by apply in_order_elem.
Qed.

(** ** One Prepare round *)

(** Without participants the assertion stops Prepare before anything
    is sent. *)
Lemma Prepare_empty timestamp st :
  participants (client st) = ∅ →
  Prepare timestamp st = Fatal AssertFailed st.
Proof.
  intros HP. unfold Prepare, bind, get_client.
  rewrite assert_participants, HP. done.
Qed.

(** With participants, Prepare sends one request to each, waits on
    their handles, and decides as [count_votes] does on their reply
    codes; a RETRY round reads the clock once and returns that reading,
    whatever the shards proposed. *)
Lemma Prepare_run timestamp st :
  let P := participants (client st) in
  let k := rounds (world st) in
  let now := clock env (ticks (world st)) in
  let sends := (λ p, EvPrepare p timestamp) <$> in_order P in
  P ≠ ∅ →
  ∃ ws,
    Forall (λ e, ∃ p, p ∈ P ∧ e = EvWait OpPrepare p) ws ∧
    match count_votes (vote k <$> in_order P) REPLY_OK with
    | Fell s =>
        if decide (s = REPLY_RETRY) then
          Prepare timestamp st
          = Done (REPLY_RETRY,
                  setTimestamp (if now >? 0 then now else 0) timestamp)
              (advance (sends ++ ws ++ [EvClock now]) 1 1 0 st)
        else
          Prepare timestamp st
          = Done (s, timestamp) (advance (sends ++ ws) 1 0 0 st)
    | Returned s =>
        Prepare timestamp st
        = Done (s, timestamp) (advance (sends ++ ws) 1 0 0 st) ∧
        ∃ ws' q, ws = ws' ++ [EvWait OpPrepare q] ∧ q ∈ P ∧ vote k q = REPLY_FAIL
    | Crashed =>
        Prepare timestamp st
        = Fatal NotImplemented (advance (sends ++ ws) 1 0 0 st)
    end.
Proof.
  intros P k now sends HP.
  set (st1 := log_add sends (advance [] 1 0 0 st)).
  destruct (tally_loop_run (round_promises k (in_order P)) REPLY_OK
              (stack_ts env k) st1) as (ws & Hws & Hrun).
  exists ws. split.
  { eapply Forall_impl; [exact Hws|]. intros e (q & Hq & ->).
    unfold round_promises in Hq. apply list_elem_of_fmap in Hq as (p & -> & Hp).
    exists p. split; [by apply in_order_elem|done]. }
  assert (Hst1 : ∀ evs r t c,
    advance evs r t c st1 = advance (sends ++ evs) (r + 1) t c st).
  { intros. unfold st1, log_add. rewrite !advance_advance. simpl.
    by rewrite !Nat.add_0_r. }
  unfold Prepare.
  erewrite bind_done; [|reflexivity].
  erewrite bind_done;
    [|by rewrite assert_participants, bool_decide_eq_true_2].
  erewrite bind_done; [|apply new_round_run].
  erewrite bind_done; [|apply send_prepares_run].
  fold P k st1. rewrite replies_round in Hrun.
  destruct (count_votes (vote k <$> in_order P) REPLY_OK) as [s|s|].
  - destruct Hrun as (ts' & Hrun).
    erewrite bind_done; [|exact Hrun]. cbn beta iota.
    destruct (decide (s = REPLY_RETRY)) as [->|Hs].
    + erewrite bind_done; [|apply GetTime_run].
      unfold log_add. rewrite advance_advance. simpl.
      rewrite Hst1. fold now. by destruct (now >? 0).
    + unfold log_add. rewrite Hst1. done.
  - destruct Hrun as (Hrun & ws' & q & -> & Hq & Hfq). split.
    + erewrite bind_done; [|exact Hrun]. unfold log_add. by rewrite Hst1.
    + unfold round_promises in Hq.
      apply list_elem_of_fmap in Hq as (p & -> & Hp).
      exists ws', p. split; [done|]. split; [by apply in_order_elem|done].
  - erewrite bind_fatal; [|exact Hrun]. unfold log_add. by rewrite Hst1.
Qed.

Lemma prepares_sends ps timestamp :
  prepares ((λ p, EvPrepare p timestamp) <$> ps) = ps.
Proof. induction ps as [|p ps IH]; [done|]. simpl. by rewrite <- IH at 2. Qed.

Lemma prepares_waits (P : gset Z) ws :
  Forall (λ e, ∃ p, p ∈ P ∧ e = EvWait OpPrepare p) ws → prepares ws = [].
Proof. induction 1 as [|e ws (p & _ & ->) _ IH]; [done|]. exact IH. Qed.

Lemma wait_within (P : gset Z) ws :
  Forall (λ e, ∃ p, p ∈ P ∧ e = EvWait OpPrepare p) ws →
  Forall (within P) ws.
Proof.
  intros H. eapply Forall_impl; [exact H|].
  intros e (p & Hp & ->) q [= <-]. done.
Qed.

Lemma sends_within (P : gset Z) timestamp :
  Forall (within P) ((λ p, EvPrepare p timestamp) <$> in_order P).
Proof.
  apply Forall_fmap, Forall_forall. intros p Hp q [= <-].
  by apply in_order_elem.
Qed.

Lemma clock_within (P : gset Z) now : within P (EvClock now).
Proof. by intros q. Qed.

(** The four ways a Prepare round with participants can end: every
    vote OK; a FAIL met first; no FAIL, no unknown code and a RETRY or
    a TIMEOUT; an unknown code met first. *)
Lemma Prepare_cases timestamp st :
  let P := participants (client st) in
  let k := rounds (world st) in
  let now := clock env (ticks (world st)) in
  P ≠ ∅ →
  ∃ evs,
    Forall (within P) evs ∧
    prepares evs = in_order P ∧
    ((all_ok k P ∧
      Prepare timestamp st = Done (REPLY_OK, timestamp) (advance evs 1 0 0 st))
     ∨ (some_fail k P ∧
        Prepare timestamp st
        = Done (REPLY_FAIL, timestamp) (advance evs 1 0 0 st) ∧
        ∃ evs' q, evs = evs' ++ [EvWait OpPrepare q] ∧ q ∈ P
                  ∧ vote k q = REPLY_FAIL)
     ∨ (undecided k P ∧
        Prepare timestamp st
        = Done (REPLY_RETRY,
                setTimestamp (if now >? 0 then now else 0) timestamp)
            (advance evs 1 1 0 st))
     ∨ (¬ all_known k P ∧
        Prepare timestamp st = Fatal NotImplemented (advance evs 1 0 0 st))).
Proof.
  intros P k now HP.
  destruct (Prepare_run timestamp st HP) as (ws & Hws & Hrun).
  fold P k now in Hrun.
  pose proof (wait_within P ws Hws) as Hw.
  pose proof (sends_within P timestamp) as Hs.
  pose proof (prepares_sends (in_order P) timestamp) as Hps.
  pose proof (prepares_waits P ws Hws) as Hpw.
  set (sends := (λ p, EvPrepare p timestamp) <$> in_order P) in *.
  assert (Hpr : prepares (sends ++ ws) = in_order P).
  { unfold prepares in *. by rewrite omap_app, Hps, Hpw, app_nil_r. }
  destruct (count_votes (vote k <$> in_order P) REPLY_OK) as [s|s|] eqn:Hc.
  - apply count_votes_fell in Hc as (Hall & [[-> Hok]|[-> Hex]]); simpl in Hrun.
    + exists (sends ++ ws). split; [by apply Forall_app|]. split; [done|]. left.
      split; [|exact Hrun]. by apply (votes_Forall (λ r, r = REPLY_OK)).
    + exists (sends ++ ws ++ [EvClock now]). split.
      { repeat (apply Forall_app; split); try done.
        repeat constructor. apply clock_within. }
      split.
      { unfold prepares in *. rewrite app_assoc, omap_app, Hpr. simpl.
        by rewrite app_nil_r. }
      right; right; left. split; [|exact Hrun].
      apply (votes_Forall (λ r, r ≠ REPLY_FAIL ∧ known_reply r = true)) in Hall.
      split; [|split].
      * intros p Hp. by apply Hall.
      * intros p Hp. by apply Hall.
      * by apply (votes_Exists (λ r, r = REPLY_RETRY ∨ r = REPLY_TIMEOUT)).
  - apply count_votes_returned in Hc as [-> Hin].
    destruct Hrun as (Hrun & ws' & q & -> & Hq & Hfq).
    exists (sends ++ ws' ++ [EvWait OpPrepare q]).
    split; [by apply Forall_app|]. split; [done|]. right; left.
    split; [|split; [exact Hrun|]].
    + apply (votes_Exists (λ r, r = REPLY_FAIL)), Exists_exists.
      by exists REPLY_FAIL.
    + exists (sends ++ ws'), q. by rewrite <- app_assoc.
  - apply count_votes_crashed in Hc.
    exists (sends ++ ws). split; [by apply Forall_app|]. split; [done|].
    right; right; right.
    split; [|exact Hrun].
    apply (votes_Exists (λ r, known_reply r = false)) in Hc as (p & Hp & Hk).
    intros Hall. specialize (Hall p Hp). simpl in Hall. congruence.
Qed.

(** The cases exclude one another as far as the properties need. *)
Lemma all_ok_not_fail k (P : gset Z) : all_ok k P → ¬ some_fail k P.
Proof. intros Hok (p & Hp & Hf). specialize (Hok p Hp). simpl in *. congruence. Qed.

Lemma all_ok_decided k (P : gset Z) : all_ok k P → ¬ undecided k P.
Proof.
  intros Hok (_ & _ & p & Hp & Hr). specialize (Hok p Hp). simpl in *.
  destruct Hr; congruence.
Qed.

Lemma all_ok_known k (P : gset Z) : all_ok k P → all_known k P.
Proof. intros Hok p Hp. specialize (Hok p Hp). simpl in *. by rewrite Hok. Qed.

Lemma undecided_not_fail k (P : gset Z) : undecided k P → ¬ some_fail k P.
Proof. intros (Hnf & _) (p & Hp & Hf). by apply (Hnf p Hp). Qed.

Lemma undecided_known k (P : gset Z) : undecided k P → all_known k P.
Proof. by intros (_ & Hk & _). Qed.

(** ** The retry loop *)

(** The state in which the loop goes round again: [retries++]. *)
Lemma retry_loop_S n status timestamp st :
  retry_loop (S n) status timestamp st =
  match Prepare timestamp st with
  | Done (s, ts') st' =>
      if decide (s = REPLY_RETRY)
      then retry_loop n s ts'
             (mkState (set_retries (retries (client st') + 1) (client st'))
                (world st'))
      else Done (s, ts') st'
  | Fatal why st' => Fatal why st'
  end.
Proof.
  cbn [retry_loop]. unfold bind at 1.
  destruct (Prepare timestamp st) as [[s ts'] st'|]; [|done].
  by destruct (decide (s = REPLY_RETRY)).
Qed.

(** The loop runs [m] rounds, at most [n]: it sends [m] times one
    Prepare request to each participant; all rounds but the last are
    undecided; the last one decides how the loop ends. *)
Lemma retry_loop_run n status timestamp st :
  let P := participants (client st) in
  let k0 := rounds (world st) in
  let o := retry_loop n status timestamp st in
  P ≠ ∅ →
  ∃ m evs,
    rounds (world (final o)) = (k0 + m)%nat ∧ (m ≤ n)%nat ∧
    participants (client (final o)) = P ∧
    log (world (final o)) = log (world st) ++ evs ∧
    Forall (within P) evs ∧
    prepares evs = mjoin (replicate m (in_order P)) ∧
    (∀ j, (S j < m)%nat → undecided (k0 + j) P) ∧
    match m with
    | O => n = O ∧ o = Done (status, timestamp) st
    | S m' =>
        let k := (k0 + m')%nat in
        (all_ok k P ∧ ∃ ts', returned o = Some (REPLY_OK, ts'))
        ∨ (some_fail k P ∧ ∃ ts', returned o = Some (REPLY_FAIL, ts'))
        ∨ (undecided k P ∧ m = n ∧ ∃ ts', returned o = Some (REPLY_RETRY, ts'))
        ∨ (¬ all_known k P ∧ ∃ st', o = Fatal NotImplemented st')
    end.
Proof.
  revert status timestamp st.
  induction n as [|n IH]; intros status timestamp st P k0 o HP.
  { exists 0%nat, []. subst o. simpl.
    rewrite Nat.add_0_r, app_nil_r. repeat split; try done; intros; lia. }
  destruct (Prepare_cases timestamp st HP) as (evs & Hevs & Hprep & Hcase).
  fold P k0 in Hcase, Hprep. subst o. rewrite retry_loop_S.
  assert (Hone : prepares evs = mjoin (replicate 1 (in_order P))).
  { simpl. by rewrite app_nil_r. }
  destruct Hcase as [[Hok ->]|[[Hf [-> _]]|[[Hu ->]|[Hk ->]]]].
  - exists 1%nat, evs. simpl. rewrite Nat.add_0_r.
    repeat split; try done; try (intros; lia).
    left. split; [done|by eexists].
  - exists 1%nat, evs. simpl. rewrite Nat.add_0_r.
    repeat split; try done; try (intros; lia).
    right; left. split; [done|by eexists].
  - rewrite decide_True by done.
    set (ts1 := setTimestamp _ timestamp).
    set (st1 := advance evs 1 1 0 st).
    set (st2 := mkState _ (world st1)).
    assert (HP2 : participants (client st2) ≠ ∅) by done.
    destruct (IH REPLY_RETRY ts1 st2 HP2)
      as (m & evs' & Hr & Hm & Hpart & Hlog & Hin & Hprep' & Hbefore & Hlast).
    change (participants (client st2)) with P in *.
    change (rounds (world st2)) with (S k0) in *.
    exists (S m), (evs ++ evs').
    refine (conj _ (conj _ (conj _ (conj _ (conj _ (conj _ (conj _ _))))))).
    + rewrite Hr. lia.
    + lia.
    + done.
    + rewrite Hlog. simpl. by rewrite app_assoc.
    + by apply Forall_app.
    + unfold prepares in *. rewrite omap_app, Hprep, Hprep'. done.
    + intros [|j] Hj.
      * by rewrite Nat.add_0_r.
      * replace (k0 + S j)%nat with (S k0 + j)%nat by lia.
        apply Hbefore. lia.
    + destruct m as [|m'].
      * destruct Hlast as [-> Hlast]. rewrite Hlast. simpl.
        rewrite Nat.add_0_r. right; right; left.
        split; [done|]. split; [done|by eexists].
      * replace (k0 + S m')%nat with (S k0 + m')%nat by lia.
        destruct Hlast as [H|[H|[(H1 & H2 & H3)|H]]]; auto.
        right; right; left. split; [done|]. split; [lia|done].
  - exists 1%nat, evs. simpl. rewrite Nat.add_0_r.
    repeat split; try done; try (intros; lia).
    right; right; right. split; [done|by eexists].
Qed.

(** ** Abort and the Commit fan-out *)

(** A loop whose body logs one event per element and changes nothing
    else. *)
Lemma for_all_emit {A B} (body : A → M B) (f : A → B) (g : A → Event) l st :
  (∀ x st, body x st = Done (f x) (log_add [g x] st)) →
  for_all l body st = Done (f <$> l) (log_add (g <$> l) st).
Proof.
  intros Hbody. revert st. induction l as [|x l IH]; intros st.
  - unfold log_add. by rewrite advance_nil.
  - cbn [for_all]. erewrite bind_done; [|apply Hbody].
    erewrite bind_done; [|apply IH].
    unfold ret. by rewrite log_add_app.
Qed.

Lemma new_Promise_run op shard timeout st :
  new_Promise op shard timeout st
  = Done (mkPromise op shard timeout (answers env (calls (world st))))
      (advance [] 0 0 1 st).
Proof.
  unfold new_Promise, advance, bind, get_world, put_world, ret. simpl.
  by rewrite app_nil_r.
Qed.

(** The first loop of Abort: one handle and one request per shard. *)
Lemma abort_sends_run ps st :
  ∃ promises,
    for_all ps (λ p,
      promise ← new_Promise OpAbort p ABORT_TIMEOUT;
      emit (EvAbort p);;
      ret promise) st
    = Done promises (advance (EvAbort <$> ps) 0 0 (length ps) st)
    ∧ (λ p, EvWait (p_op p) (p_shard p)) <$> promises = EvWait OpAbort <$> ps.
Proof.
  revert st. induction ps as [|p ps IH]; intros st.
  - exists []. by rewrite advance_nil.
  - destruct (IH (advance [EvAbort p] 0 0 1 st)) as (promises & Hrun & Hw).
    eexists (_ :: promises). cbn [for_all]. split.
    + erewrite bind_done.
      2:{ erewrite bind_done; [|apply new_Promise_run].
          erewrite bind_done; [|apply emit_run]. reflexivity. }
      erewrite bind_done.
      2:{ unfold log_add. rewrite advance_advance. simpl. exact Hrun. }
      unfold ret. rewrite advance_advance. simpl.
      by rewrite Nat.add_1_r.
    + rewrite !fmap_cons, Hw. done.
Qed.

(** Abort asks every participant, then waits on every handle, and
    returns; the coordinator's fields stay as they are. *)
Lemma Abort_run st :
  let P := participants (client st) in
  Abort st = Done tt (advance (abort_round P) 0 0 (length (in_order P)) st).
Proof.
  intros P. unfold Abort.
  erewrite bind_done; [|reflexivity]. fold P.
  destruct (abort_sends_run (in_order P) st) as (promises & Hrun & Hw).
  erewrite bind_done; [|exact Hrun].
  erewrite bind_done.
  2:{ apply (for_all_emit GetReply (λ p, r_reply (p_res p))
               (λ p, EvWait (p_op p) (p_shard p))).
      intros. apply GetReply_run. }
  unfold ret, log_add, abort_round. rewrite advance_advance, Hw. done.
Qed.

Lemma abort_round_within (P : gset Z) : Forall (within P) (abort_round P).
Proof.
  unfold abort_round. apply Forall_app; split;
    apply Forall_fmap, Forall_forall; intros p Hp q [= <-];
    by apply in_order_elem.
Qed.

(** The Commit fan-out. *)
Lemma commit_sends_run ps st :
  for_all ps (λ p, emit (EvCommit p 0)) st
  = Done ((λ _, tt) <$> ps) (log_add ((λ p, EvCommit p 0) <$> ps) st).
Proof. apply for_all_emit. intros. apply emit_run. Qed.

(** ** Commit *)

(** The state in which the retry loop starts: the clock has been read
    and [retries] is zero. *)
Lemma Commit_run st :
  let now := clock env (ticks (world st)) in
  let st0 :=
    mkState (set_retries 0 (client st))
      (world (advance [EvClock now] 0 1 0 st)) in
  Commit st =
  match retry_loop (Z.to_nat (COMMIT_RETRIES - 0)) (stack_status env)
          (mkTimestamp now (client_id (client st))) st0 with
  | Done (status, _) st' =>
      let P := participants (client st') in
      if decide (status = REPLY_OK)
      then Done true (log_add ((λ p, EvCommit p 0) <$> in_order P) st')
      else Done false (advance (abort_round P) 0 0 (length (in_order P)) st')
  | Fatal why st' => Fatal why st'
  end.
Proof.
  intros now st0. unfold Commit.
  erewrite bind_done; [|reflexivity].
  erewrite bind_done; [|apply GetTime_run].
  erewrite bind_done; [|reflexivity].
  fold now. unfold bind at 1. fold st0.
  destruct (retry_loop _ _ _ st0) as [[status ts'] st'|]; [|done].
  destruct (decide (status = REPLY_OK)).
  - erewrite bind_done; [|reflexivity].
    erewrite bind_done; [|apply commit_sends_run]. done.
  - erewrite bind_done; [|apply Abort_run]. done.
Qed.

(** ** Begin, Get and Put *)

Lemma Begin_run st :
  Begin st
  = Done tt
      (mkState (set_participants ∅ (set_t_id (incr64 (t_id (client st)))
                                      (client st)))
         (world st)).
Proof. done. Qed.

(** Get and Put register the shard of the key, send it the operation
    and touch no other shard. *)
Lemma Get_run key st :
  let i := key_to_shard key (nshards (client st)) in
  ∃ a st' evs,
    Get key st = Done a st' ∧
    participants (client st') = {[i]} ∪ participants (client st) ∧
    nshards (client st') = nshards (client st) ∧
    log (world st') = log (world st) ++ evs ∧
    (∀ p, Exists (access p) evs ↔ p = i).
Proof.
  intros i. unfold Get.
  erewrite bind_done; [|reflexivity]. fold i.
  destruct (decide (i ∈ participants (client st))) as [Hi|Hi].
  - erewrite bind_done; [|reflexivity].
    erewrite bind_done; [|apply new_Promise_run].
    erewrite bind_done; [|apply emit_run].
    erewrite bind_done; [|reflexivity].
    erewrite bind_done; [|apply GetReply_run].
    eexists _, _, [EvGet i key; EvWait OpGet i; EvWait OpGet i].
    split; [reflexivity|]. simpl.
    split; [set_solver|]. split; [done|].
    split; [by rewrite app_nil_r, <- !app_assoc|].
    intros p. rewrite !Exists_cons, Exists_nil. simpl. naive_solver.
  - erewrite bind_done;
      [|erewrite bind_done; [apply emit_run|reflexivity]].
    erewrite bind_done; [|apply new_Promise_run].
    erewrite bind_done; [|apply emit_run].
    erewrite bind_done; [|reflexivity].
    erewrite bind_done; [|apply GetReply_run].
    eexists _, _, [EvBegin i (t_id (client st)); EvGet i key;
                   EvWait OpGet i; EvWait OpGet i].
    split; [reflexivity|]. simpl.
    split; [done|]. split; [done|].
    split; [by rewrite app_nil_r, <- !app_assoc|].
    intros p. rewrite !Exists_cons, Exists_nil. simpl. naive_solver.
Qed.

Lemma Put_run key value st :
  let i := key_to_shard key (nshards (client st)) in
  ∃ a st' evs,
    Put key value st = Done a st' ∧
    participants (client st') = {[i]} ∪ participants (client st) ∧
    nshards (client st') = nshards (client st) ∧
    log (world st') = log (world st) ++ evs ∧
    (∀ p, Exists (access p) evs ↔ p = i).
Proof.
  intros i. unfold Put.
  erewrite bind_done; [|reflexivity]. fold i.
  destruct (decide (i ∈ participants (client st))) as [Hi|Hi].
  - erewrite bind_done; [|reflexivity].
    erewrite bind_done; [|apply new_Promise_run].
    erewrite bind_done; [|apply emit_run].
    eexists _, _, [EvPut i key value; EvWait OpPut i].
    split; [apply GetReply_run|]. simpl.
    split; [set_solver|]. split; [done|].
    split; [by rewrite app_nil_r, <- !app_assoc|].
    intros p. rewrite !Exists_cons, Exists_nil. simpl. naive_solver.
  - erewrite bind_done;
      [|erewrite bind_done; [apply emit_run|reflexivity]].
    erewrite bind_done; [|apply new_Promise_run].
    erewrite bind_done; [|apply emit_run].
    eexists _, _, [EvBegin i (t_id (client st)); EvPut i key value;
                   EvWait OpPut i].
    split; [apply GetReply_run|]. simpl.
    split; [done|]. split; [done|].
    split; [by rewrite app_nil_r, <- !app_assoc|].
    intros p. rewrite !Exists_cons, Exists_nil. simpl. naive_solver.
Qed.

(** After a sequence of calls the participant set holds what it held
    before and the shards of the keys, which are the shards that were
    sent a Get or a Put. *)
Lemma run_calls_run cs st :
  ∃ st' evs,
    run_calls cs st = Done tt st' ∧
    nshards (client st') = nshards (client st) ∧
    log (world st') = log (world st) ++ evs ∧
    (∀ p, p ∈ participants (client st')
          ↔ p ∈ participants (client st) ∨ Exists (access p) evs) ∧
    (∀ p, Exists (access p) evs
          ↔ Exists (λ c, key_to_shard (call_key c) (nshards (client st)) = p) cs).
Proof.
  revert st. induction cs as [|c cs IH]; intros st.
  - exists st, []. rewrite app_nil_r. repeat split; try done.
    + by left.
    + intros [?|?%Exists_nil]; done.
    + by intros ?%Exists_nil.
    + by intros ?%Exists_nil.
  - assert (∃ st1 evs1,
      run_call c st = Done tt st1 ∧
      nshards (client st1) = nshards (client st) ∧
      log (world st1) = log (world st) ++ evs1 ∧
      participants (client st1)
      = {[key_to_shard (call_key c) (nshards (client st))]}
          ∪ participants (client st) ∧
      (∀ p, Exists (access p) evs1
            ↔ p = key_to_shard (call_key c) (nshards (client st))))
      as (st1 & evs1 & Hrun1 & Hn1 & Hlog1 & Hp1 & Hacc1).
    { destruct c as [key|key value]; simpl.
      - destruct (Get_run key st) as (a & st1 & evs1 & Hrun & HP & Hn & Hlog & Hacc).
        exists st1, evs1. by erewrite bind_done; [|exact Hrun].
      - destruct (Put_run key value st)
          as (a & st1 & evs1 & Hrun & HP & Hn & Hlog & Hacc).
        exists st1, evs1. by erewrite bind_done; [|exact Hrun]. }
    destruct (IH st1) as (st' & evs & Hrun & Hn & Hlog & Hp & Hacc).
    exists st', (evs1 ++ evs). cbn [run_calls].
    erewrite bind_done; [|exact Hrun1].
    split; [done|]. split; [congruence|].
    split; [by rewrite Hlog, Hlog1, app_assoc|]. split.
    + intros p. rewrite Hp, Hp1, Exists_app, Hacc1.
      rewrite elem_of_union, elem_of_singleton. tauto.
    + intros p. rewrite Exists_app, Exists_cons, Hacc1, Hacc, Hn1.
      split; intros [?|?]; auto.
Qed.

(** ** Commit, case by case *)

(** Without participants the first Prepare of the loop stops in its
    assertion. *)
Lemma retry_loop_empty n status timestamp st :
  participants (client st) = ∅ →
  retry_loop (S n) status timestamp st = Fatal AssertFailed st.
Proof. intros HP. by rewrite retry_loop_S, Prepare_empty. Qed.

Lemma Commit_empty st :
  0 < COMMIT_RETRIES →
  participants (client st) = ∅ →
  Commit st
  = Fatal AssertFailed
      (mkState (set_retries 0 (client st))
         (world (advance [EvClock (clock env (ticks (world st)))] 0 1 0 st))).
Proof.
  intros Hpos HP. rewrite Commit_run.
  destruct (Z.to_nat (COMMIT_RETRIES - 0)) as [|n] eqn:Hn; [lia|].
  by rewrite retry_loop_empty.
Qed.

(** With participants: Commit runs [S m] rounds, all but the last of
    them undecided, and ends as the last round says. *)
Lemma Commit_cases st :
  let P := participants (client st) in
  let k0 := rounds (world st) in
  let now := clock env (ticks (world st)) in
  let o := Commit st in
  0 < COMMIT_RETRIES →
  P ≠ ∅ →
  ∃ m evs,
    rounds (world (final o)) = (k0 + S m)%nat ∧
    (S m ≤ Z.to_nat COMMIT_RETRIES)%nat ∧
    participants (client (final o)) = P ∧
    Forall (within P) evs ∧
    prepares evs = mjoin (replicate (S m) (in_order P)) ∧
    (∀ j, (j < m)%nat → undecided (k0 + j) P) ∧
    let k := (k0 + m)%nat in
    (all_ok k P ∧ returned o = Some true ∧
     log (world (final o))
     = log (world st) ++ [EvClock now] ++ evs
         ++ ((λ p, EvCommit p 0) <$> in_order P))
    ∨ (some_fail k P ∧ returned o = Some false ∧
       log (world (final o))
       = log (world st) ++ [EvClock now] ++ evs ++ abort_round P)
    ∨ (undecided k P ∧ S m = Z.to_nat COMMIT_RETRIES ∧
       returned o = Some false ∧
       log (world (final o))
       = log (world st) ++ [EvClock now] ++ evs ++ abort_round P)
    ∨ (¬ all_known k P ∧ (∃ st', o = Fatal NotImplemented st') ∧
       log (world (final o)) = log (world st) ++ [EvClock now] ++ evs).
Proof.
  intros P k0 now o Hpos HP. subst o. rewrite Commit_run. fold now.
  set (st0 := mkState _ _).
  rewrite Z.sub_0_r.
  destruct (retry_loop_run (Z.to_nat COMMIT_RETRIES) (stack_status env)
              (mkTimestamp now (client_id (client st))) st0 HP)
    as (m & evs & Hr & Hm & Hpart & Hlog & Hin & Hprep & Hbefore & Hlast).
  change (participants (client st0)) with P in *.
  change (rounds (world st0)) with k0 in *.
  change (log (world st0)) with (log (world st) ++ [EvClock now]) in Hlog.
  destruct m as [|m]; [lia|].
  exists m, evs.
  assert (Hb : ∀ j, (j < m)%nat → undecided (k0 + j) P)
    by (intros j Hj; apply Hbefore; lia).
  destruct (retry_loop _ _ _ st0) as [[status ts'] st'|why st'];
    simpl in Hr, Hpart, Hlog, Hlast; cbv zeta.
  - destruct Hlast as [[Hok (? & [= -> ->])]
                      |[[Hf (? & [= -> ->])]
                       |[(Hu & Hmn & ? & [= -> ->])|[_ (? & [=])]]]].
    + rewrite decide_True by done. simpl.
      rewrite Hr, Hpart, Hlog, <- !app_assoc.
      refine (conj eq_refl (conj Hm (conj eq_refl (conj Hin
                (conj Hprep (conj Hb _)))))).
      left. done.
    + rewrite decide_False by done. simpl.
      rewrite Hr, Hpart, Hlog, <- !app_assoc.
      refine (conj eq_refl (conj Hm (conj eq_refl (conj Hin
                (conj Hprep (conj Hb _)))))).
      right; left. done.
    + rewrite decide_False by done. simpl.
      rewrite Hr, Hpart, Hlog, <- !app_assoc.
      refine (conj eq_refl (conj Hm (conj eq_refl (conj Hin
                (conj Hprep (conj Hb _)))))).
      right; right; left. done.
  - destruct Hlast as [[_ (? & [=])]
                      |[[_ (? & [=])]
                       |[(_ & _ & ? & [=])|[Hk (? & [= -> ->])]]]].
    simpl. rewrite Hr, Hpart, Hlog, <- !app_assoc.
    refine (conj eq_refl (conj Hm (conj eq_refl (conj Hin
              (conj Hprep (conj Hb _)))))).
    right; right; right. split; [done|]. split; [by eexists|done].
Qed.

(** ** No shard outside the participant set is contacted *)

Lemma Prepare_within timestamp st :
  ∃ evs,
    client (final (Prepare timestamp st)) = client st ∧
    log (world (final (Prepare timestamp st))) = log (world st) ++ evs ∧
    Forall (within (participants (client st))) evs.
Proof.
  destruct (decide (participants (client st) = ∅)) as [HP|HP].
  - rewrite Prepare_empty by done. exists []. by rewrite app_nil_r.
  - destruct (Prepare_cases timestamp st HP) as (evs & Hevs & _ & Hcase).
    exists evs.
    by destruct Hcase as [[_ ->]|[[_ [-> _]]|[[_ ->]|[_ ->]]]].
Qed.

Lemma retry_loop_within n status timestamp st :
  let o := retry_loop n status timestamp st in
  ∃ evs,
    participants (client (final o)) = participants (client st) ∧
    log (world (final o)) = log (world st) ++ evs ∧
    Forall (within (participants (client st))) evs.
Proof.
  intros o. destruct (decide (participants (client st) = ∅)) as [HP|HP].
  - exists []. subst o. rewrite app_nil_r.
    destruct n; [done|]. by rewrite retry_loop_empty.
  - destruct (retry_loop_run n status timestamp st HP)
      as (m & evs & _ & _ & Hpart & Hlog & Hin & _).
    by exists evs.
Qed.

Lemma Abort_within st :
  ∃ evs,
    client (final (Abort st)) = client st ∧
    log (world (final (Abort st))) = log (world st) ++ evs ∧
    Forall (within (participants (client st))) evs.
Proof.
  exists (abort_round (participants (client st))). rewrite Abort_run.
  split; [done|]. split; [done|]. apply abort_round_within.
Qed.

Lemma Commit_within st :
  ∃ evs,
    participants (client (final (Commit st))) = participants (client st) ∧
    log (world (final (Commit st))) = log (world st) ++ evs ∧
    Forall (within (participants (client st))) evs.
Proof.
  rewrite Commit_run. set (now := clock env _). set (st0 := mkState _ _).
  destruct (retry_loop_within (Z.to_nat (COMMIT_RETRIES - 0))
              (stack_status env) (mkTimestamp now (client_id (client st))) st0)
    as (evs & Hpart & Hlog & Hin).
  change (participants (client st0)) with (participants (client st)) in *.
  change (log (world st0)) with (log (world st) ++ [EvClock now]) in Hlog.
  pose proof (clock_within (participants (client st)) now) as Hc.
  destruct (retry_loop _ _ _ st0) as [[status ts'] st'|why st'];
    simpl in Hpart, Hlog; cbv zeta.
  - destruct (decide (status = REPLY_OK)).
    + exists (EvClock now :: evs
              ++ ((λ p, EvCommit p 0) <$> in_order (participants (client st)))).
      simpl. rewrite Hpart, Hlog, <- !app_assoc.
      split; [done|]. split; [done|].
      constructor; [done|]. apply Forall_app. split; [done|].
      apply Forall_fmap, Forall_forall. intros p Hp q [= <-].
      by apply in_order_elem.
    + exists (EvClock now :: evs ++ abort_round (participants (client st))).
      simpl. rewrite Hpart, Hlog, <- !app_assoc.
      split; [done|]. split; [done|].
      constructor; [done|]. apply Forall_app. split; [done|].
      apply abort_round_within.
  - exists (EvClock now :: evs). simpl. rewrite Hlog, <- !app_assoc.
    split; [done|]. split; [done|]. by constructor.
Qed.

(** ** The Prepare requests of a Commit *)

Lemma prepares_abort_round (P : gset Z) : prepares (abort_round P) = [].
Proof.
  unfold prepares, abort_round. rewrite omap_app.
  assert (H : ∀ (f : Z → Event) ps, (∀ p, prepared (f p) = None) →
                omap prepared (f <$> ps) = []).
  { intros f ps Hf. induction ps as [|p ps IH]; [done|]. simpl.
    by rewrite Hf. }
  by rewrite !H.
Qed.

Lemma prepares_commits ps : prepares ((λ p, EvCommit p 0) <$> ps) = [].
Proof. induction ps as [|p ps IH]; [done|]. exact IH. Qed.

(** Commit sends as many times one Prepare request to each participant
    as it runs Prepare rounds, and no other Prepare request. *)
Lemma Commit_prepares st :
  let P := participants (client st) in
  let o := Commit st in
  0 < COMMIT_RETRIES →
  ∃ evs,
    log (world (final o)) = log (world st) ++ evs ∧
    prepares evs
    = mjoin (replicate (rounds (world (final o)) - rounds (world st))
               (in_order P)).
Proof.
  intros P o Hpos. subst o.
  destruct (decide (P = ∅)) as [HP|HP].
  - rewrite Commit_empty by done. simpl. eexists. split; [done|].
    by rewrite Nat.sub_diag.
  - destruct (Commit_cases st Hpos HP)
      as (m & evs & Hr & _ & _ & _ & Hprep & _ & Hlast).
    fold P in Hlast, Hprep. rewrite Hr.
    replace (rounds (world st) + S m - rounds (world st))%nat with (S m) by lia.
    set (now := clock env _) in *.
    pose proof (prepares_abort_round P) as Ha.
    pose proof (prepares_commits (in_order P)) as Hc.
    unfold prepares in *.
    destruct Hlast as [(_ & _ & ->)|[(_ & _ & ->)|[(_ & _ & _ & ->)
                      |(_ & _ & ->)]]];
      eexists; (split; [reflexivity|]);
      rewrite ?omap_app, ?Ha, ?Hc, Hprep; simpl; by rewrite ?app_nil_r.
Qed.

(** A retry bound that is not positive lets Commit run no round. *)
Lemma Commit_no_retries st :
  COMMIT_RETRIES ≤ 0 →
  rounds (world (final (Commit st))) = rounds (world st).
Proof.
  intros Hle. rewrite Commit_run.
  replace (Z.to_nat (COMMIT_RETRIES - 0)) with 0%nat by lia.
  cbn [retry_loop]. unfold ret. cbv zeta.
  by destruct (decide (stack_status env = REPLY_OK)).
Qed.

(** ** The retry timestamp *)

(** Whenever Prepare returns RETRY, the timestamp it hands back is the
    clock reading of this round (zero when the clock reads nothing
    positive): the function-level [proposed] it compares the clock
    with is still 0, the proposals of the shards went to the loop's own
    [proposed] and to [ts], which is never read again. *)
Lemma Prepare_retry_timestamp timestamp st ts' st' :
  Prepare timestamp st = Done (REPLY_RETRY, ts') st' →
  let now := clock env (ticks (world st)) in
  ts' = setTimestamp (if now >? 0 then now else 0) timestamp.
Proof.
  intros Hrun now.
  destruct (decide (participants (client st) = ∅)) as [HP|HP].
  - by rewrite Prepare_empty in Hrun.
  - destruct (Prepare_cases timestamp st HP) as (evs & _ & _ & Hcase).
    destruct Hcase as [[_ H]|[[_ [H _]]|[[_ H]|[_ H]]]];
      rewrite H in Hrun; by simplify_eq.
Qed.

(** ** A FAIL vote within reach *)

(** A FAIL vote that no unknown code keeps Prepare from reading decides
    the count, whatever the votes after it. *)
Lemma count_votes_fail_reached k l1 p l2 s :
  Forall (λ q, known_reply (vote k q) = true) l1 →
  vote k p = REPLY_FAIL →
  count_votes (vote k <$> l1 ++ p :: l2) s = Returned REPLY_FAIL.
Proof using Type.
  intros Hl Hp. revert s. induction Hl as [|q l1 Hq _ IH]; intros s; simpl.
  - by rewrite Hp.
  - destruct (vote k q); try done; apply IH.
Qed.

Lemma fail_reached_tally k (P : gset Z) s :
  fail_reached k P →
  count_votes (vote k <$> in_order P) s = Returned REPLY_FAIL.
Proof using Type.
  intros (l1 & p & l2 & -> & Hl & Hp). by apply count_votes_fail_reached.
Qed.

Lemma fail_reached_some_fail k (P : gset Z) :
  fail_reached k P → some_fail k P.
Proof using Type.
  intros (l1 & p & l2 & Heq & _ & Hp). exists p. split; [|done].
  apply in_order_elem. rewrite Heq. apply elem_of_app. right. by left.
Qed.

(** A round whose votes are all among the four codes has every one of
    its FAIL votes within reach. *)
Lemma some_fail_known_reached k (P : gset Z) :
  some_fail k P → all_known k P → fail_reached k P.
Proof using Type.
  intros (p & Hp & Hf) Hk.
  apply in_order_elem, list_elem_of_split in Hp as (l1 & l2 & Heq).
  exists l1, p, l2. split; [done|]. split; [|done].
  apply Forall_forall. intros q Hq. apply Hk, in_order_elem.
  rewrite Heq. apply elem_of_app. by left.
Qed.

(** The retry loop stops in [NOT_IMPLEMENTED] only in a round whose
    vote count meets an unknown code before any FAIL. *)
Lemma retry_loop_fatal n status timestamp st why st' :
  participants (client st) ≠ ∅ →
  retry_loop n status timestamp st = Fatal why st' →
  ∃ m, rounds (world st') = (rounds (world st) + S m)%nat ∧
       count_votes
         (vote (rounds (world st) + m) <$> in_order (participants (client st)))
         REPLY_OK = Crashed.
Proof using Type.
  revert status timestamp st.
  induction n as [|n IH]; intros status timestamp st HP Hrun; [done|].
  rewrite retry_loop_S in Hrun.
  destruct (Prepare_run timestamp st HP) as (ws & _ & Hp). cbn zeta in Hp.
  destruct (count_votes _ REPLY_OK) as [s|s|] eqn:Hc.
  - destruct (decide (s = REPLY_RETRY)) as [->|Hs].
    + rewrite Hp in Hrun. rewrite decide_True in Hrun by done.
      apply IH in Hrun; [|done]. destruct Hrun as (m & Hr & Hm).
      simpl in Hr, Hm. exists (S m). split; [rewrite Hr; lia|].
      by replace (rounds (world st) + S m)%nat
        with (S (rounds (world st) + m)) by lia.
    + rewrite Hp in Hrun. by rewrite decide_False in Hrun.
  - destruct Hp as (Hp & _). apply count_votes_returned in Hc as [-> _].
    rewrite Hp in Hrun. by rewrite decide_False in Hrun.
  - rewrite Hp in Hrun. injection Hrun as _ <-. exists 0%nat.
    simpl. rewrite Nat.add_0_r. split; [lia|done].
Qed.

(** ** Properties of the specification *)

(** C2: provided the retry bound is positive, Commit returns [true]
    exactly when it ran at least one Prepare round and every
    participant voted OK in the last round it ran, the round that
    ended the retry loop. *)
Theorem Commit_true_iff_final_round_all_ok st :
  let P := participants (client st) in
  let o := Commit st in
  0 < COMMIT_RETRIES →
  returned o = Some true ↔
    (rounds (world st) < rounds (world (final o)))%nat ∧
    all_ok (rounds (world (final o)) - 1) P.
Proof.
  intros P o Hpos. subst o.
  destruct (decide (P = ∅)) as [HP|HP].
  - rewrite Commit_empty by done. simpl. split; [done|]. intros [? _]. lia.
  - destruct (Commit_cases st Hpos HP)
      as (m & evs & Hr & _ & _ & _ & _ & _ & Hlast).
    fold P in Hlast. rewrite Hr.
    replace (rounds (world st) + S m - 1)%nat with (rounds (world st) + m)%nat
      by lia.
    destruct Hlast as [(Hok & -> & _)|[(Hf & -> & _)|[(Hu & _ & -> & _)
                      |(Hk & (st' & ->) & _)]]].
    + split; [|done]. intros _. split; [lia|done].
    + split; [done|]. intros [_ Hok]. by apply all_ok_not_fail in Hok.
    + split; [done|]. intros [_ Hok]. by apply all_ok_decided in Hok.
    + split; [done|]. intros [_ Hok]. by apply all_ok_known in Hok.
Qed.

(** C3, as amended: when some participant votes FAIL in the Prepare
    round [k] and no participant before it in the order of the set
    answers with a code outside the four reply codes, then, whatever
    the participants after it answer, Prepare returns FAIL in that
    round with the timestamp it was given, and the last thing it does
    is to read a FAIL vote; a Commit that gets to run the round [k]
    runs no round after it, returns [false], and ends with an Abort
    request to every participant and a wait on every one of the Abort
    handles. *)
Theorem fail_vote_aborts_on_every_participant st k :
  let P := participants (client st) in
  let o := Commit st in
  fail_reached k P →
  (rounds (world st) ≤ k < rounds (world (final o)))%nat →
  (∀ st1 timestamp,
     participants (client st1) = P → rounds (world st1) = k →
     ∃ st' evs q,
       Prepare timestamp st1 = Done (REPLY_FAIL, timestamp) st' ∧
       log (world st') = log (world st1) ++ evs ++ [EvWait OpPrepare q] ∧
       q ∈ P ∧ vote k q = REPLY_FAIL) ∧
  rounds (world (final o)) = S k ∧
  returned o = Some false ∧
  (∃ evs,
     log (world (final o)) = log (world st) ++ evs ++ abort_round P ∧
     prepares evs
     = mjoin (replicate (S k - rounds (world st)) (in_order P))) ∧
  (∀ p, p ∈ P → EvAbort p ∈ abort_round P).
Proof.
  intros P o Hreach Hk.
  pose proof (fail_reached_some_fail k P Hreach) as Hfail.
  assert (Hpos : 0 < COMMIT_RETRIES).
  { destruct (decide (0 < COMMIT_RETRIES)) as [|Hle]; [done|].
    subst o. rewrite Commit_no_retries in Hk by lia. lia. }
  assert (HP : P ≠ ∅).
  { destruct Hfail as (p & Hp & _). intros HP. rewrite HP in Hp.
    by apply not_elem_of_empty in Hp. }
  split.
  { intros st1 timestamp HP1 Hk1. rewrite <- HP1 in HP.
    destruct (Prepare_run timestamp st1 HP) as (ws & _ & Hrun).
    cbn zeta in Hrun. rewrite HP1, Hk1 in Hrun.
    rewrite (fail_reached_tally k P REPLY_OK Hreach) in Hrun.
    destruct Hrun as (Hrun & ws' & q & -> & Hq & Hfq).
    eexists _, (((λ p, EvPrepare p timestamp) <$> in_order P) ++ ws'), q.
    split; [exact Hrun|]. split; [|done].
    simpl. by rewrite <- !app_assoc. }
  destruct (Commit_cases st Hpos HP)
    as (m & evs & Hr & _ & _ & _ & Hprep & Hbefore & Hlast).
  fold o P in Hr, Hlast, Hbefore, Hprep.
  assert (Hkm : k = (rounds (world st) + m)%nat).
  { destruct (decide (k = rounds (world st) + m)%nat) as [|Hne]; [done|].
    assert (Hu : undecided k P).
    { replace k with (rounds (world st) + (k - rounds (world st)))%nat by lia.
      apply Hbefore. lia. }
    by apply undecided_not_fail in Hu. }
  subst k.
  destruct Hlast as [(Hok & _)|[(_ & Hret & Hlog)|[(Hu & _)|(_ & (st' & Ho) & _)]]].
  - by apply all_ok_not_fail in Hok.
  - split; [lia|]. split; [done|]. split.
    + exists ([EvClock (clock env (ticks (world st)))] ++ evs).
      split; [by rewrite Hlog, <- !app_assoc|].
      replace (S (rounds (world st) + m) - rounds (world st))%nat
        with (S m) by lia.
      exact Hprep.
    + intros p Hp. unfold abort_round. apply elem_of_app. left.
      apply list_elem_of_fmap. exists p. split; [done|by apply in_order_elem].
  - by apply undecided_not_fail in Hu.
  - exfalso. subst o. rewrite Ho in Hr. rewrite Commit_run in Ho.
    destruct (retry_loop _ _ _ _) as [[s ts] st2|why st2] eqn:Hloop.
    { by destruct (decide (s = REPLY_OK)). }
    injection Ho as -> ->. apply retry_loop_fatal in Hloop; [|exact HP].
    destruct Hloop as (m' & Hr' & Hc). simpl in Hr, Hr', Hc.
    assert (m' = m) as -> by lia.
    fold P in Hc. by rewrite (fail_reached_tally _ P REPLY_OK Hreach) in Hc.
Qed.

(** C4: Begin empties the participant set whatever it held; after any
    sequence of Get and Put calls the set holds exactly the shards that
    were sent a Get or a Put since that Begin, which are the shards of
    the keys; and every event of a Prepare, a Commit or an Abort that
    follows is addressed to a shard of the set. *)
Theorem participants_are_the_shards_touched st cs :
  ∃ st0 st1 evs,
    Begin st = Done tt st0 ∧
    participants (client st0) = ∅ ∧
    run_calls cs st0 = Done tt st1 ∧
    log (world st1) = log (world st0) ++ evs ∧
    (∀ p, p ∈ participants (client st1) ↔ Exists (access p) evs) ∧
    (∀ p, p ∈ participants (client st1)
          ↔ Exists (λ c, key_to_shard (call_key c) (nshards (client st)) = p) cs) ∧
    (∀ timestamp, ∃ evs',
       log (world (final (Prepare timestamp st1))) = log (world st1) ++ evs' ∧
       Forall (within (participants (client st1))) evs') ∧
    (∃ evs',
       log (world (final (Commit st1))) = log (world st1) ++ evs' ∧
       Forall (within (participants (client st1))) evs') ∧
    (∃ evs',
       log (world (final (Abort st1))) = log (world st1) ++ evs' ∧
       Forall (within (participants (client st1))) evs').
Proof.
  rewrite Begin_run. set (st0 := mkState _ _).
  destruct (run_calls_run cs st0) as (st1 & evs & Hrun & Hn & Hlog & Hp & Hacc).
  exists st0, st1, evs.
  split; [done|]. split; [done|]. split; [done|]. split; [done|].
  split; [|split; [|split; [|split]]].
  - intros p. rewrite Hp. simpl. rewrite elem_of_empty. tauto.
  - intros p. rewrite Hp, Hacc. simpl. rewrite elem_of_empty. tauto.
  - intros timestamp.
    destruct (Prepare_within timestamp st1) as (evs' & _ & H1 & H2).
    by exists evs'.
  - destruct (Commit_within st1) as (evs' & _ & H1 & H2). by exists evs'.
  - destruct (Abort_within st1) as (evs' & _ & H1 & H2). by exists evs'.
Qed.

(** C5: provided the retry bound is positive, Commit runs at most
    COMMIT_RETRIES Prepare rounds, and sends each participant one Prepare
    request per round and no other; and when every round within the
    bound is undecided (no FAIL, a RETRY or a TIMEOUT, as when every
    shard times out every time), Commit runs exactly COMMIT_RETRIES
    rounds, returns [false] instead of stopping fatally, and ends with
    the Abort round over all participants. *)
Theorem Commit_retries_bounded st :
  let P := participants (client st) in
  let k0 := rounds (world st) in
  let o := Commit st in
  let n := (rounds (world (final o)) - k0)%nat in
  0 < COMMIT_RETRIES →
  Z.of_nat n ≤ COMMIT_RETRIES ∧
  (∃ evs, log (world (final o)) = log (world st) ++ evs ∧
          prepares evs = mjoin (replicate n (in_order P))) ∧
  ((∀ k, (k0 ≤ k)%nat → Z.of_nat k < Z.of_nat k0 + COMMIT_RETRIES →
         undecided k P) →
   Z.of_nat n = COMMIT_RETRIES ∧
   returned o = Some false ∧
   (∃ evs, log (world (final o)) = log (world st) ++ evs ++ abort_round P) ∧
   (∀ p, p ∈ P → EvAbort p ∈ abort_round P)).
Proof.
  intros P k0 o n Hpos. subst n o.
  split; [|split; [by apply Commit_prepares|]].
  - destruct (decide (P = ∅)) as [HP|HP].
    + rewrite Commit_empty by done. simpl. fold k0. lia.
    + destruct (Commit_cases st Hpos HP) as (m & evs & Hr & Hm & _).
      fold k0 in Hr. rewrite Hr. lia.
  - intros Hu.
    assert (HP : P ≠ ∅).
    { destruct (Hu k0) as (_ & _ & p & Hp & _); [lia..|].
      intros HP. rewrite HP in Hp. by apply not_elem_of_empty in Hp. }
    destruct (Commit_cases st Hpos HP)
      as (m & evs & Hr & Hm & _ & _ & _ & _ & Hlast).
    fold P k0 in Hr, Hlast. rewrite Hr.
    assert (Hm' : undecided (k0 + m) P) by (apply Hu; lia).
    destruct Hlast as [(Hok & _)|[(Hf & _)|[(_ & Hmn & Hret & Hlog)
                      |(Hk & _)]]].
    + by apply all_ok_decided in Hok.
    + by apply undecided_not_fail in Hm'.
    + split; [lia|]. split; [done|]. split.
      * exists ([EvClock (clock env (ticks (world st)))] ++ evs).
        by rewrite Hlog, <- !app_assoc.
      * intros p Hp. unfold abort_round. apply elem_of_app. left.
        apply list_elem_of_fmap. exists p.
        split; [done|by apply in_order_elem].
    + by apply undecided_known in Hm'.
Qed.

(** C6: provided the retry bound is positive, a Commit without
    participants stops fatally in the assertion of Prepare, having read
    the clock and nothing else: no Prepare round is started and no
    request is sent; and a Commit with at least one participant never
    stops in that assertion. *)
Theorem Commit_without_participants_is_fatal st :
  let P := participants (client st) in
  0 < COMMIT_RETRIES →
  (P = ∅ →
   ∃ st', Commit st = Fatal AssertFailed st' ∧
          log (world st')
          = log (world st) ++ [EvClock (clock env (ticks (world st)))] ∧
          rounds (world st') = rounds (world st)) ∧
  (P ≠ ∅ → ∀ st', Commit st ≠ Fatal AssertFailed st').
Proof.
  intros P Hpos. split.
  - intros HP. rewrite Commit_empty by done. by eexists.
  - intros HP st' Hrun.
    destruct (Commit_cases st Hpos HP)
      as (m & evs & _ & _ & _ & _ & _ & _ & Hlast).
    rewrite Hrun in Hlast. simpl in Hlast.
    destruct Hlast as [(_ & [=] & _)|[(_ & [=] & _)|[(_ & _ & [=] & _)
                      |(_ & (? & [=]) & _)]]].
Qed.


(** C8: Abort sends an Abort request to every participant, then waits
    on the handle of every one of them, and only then returns; what the
    handles resolve to plays no part, and the coordinator's fields are
    as before. *)
Theorem Abort_asks_and_awaits_every_participant st :
  let P := participants (client st) in
  ∃ st',
    Abort st = Done tt st' ∧
    client st' = client st ∧
    log (world st')
    = log (world st) ++ (EvAbort <$> in_order P)
        ++ (EvWait OpAbort <$> in_order P) ∧
    (∀ p, p ∈ in_order P ↔ p ∈ P) ∧
    NoDup (in_order P).
Proof.
  intros P. eexists. split; [apply Abort_run|]. fold P.
  split; [done|]. split; [done|].
  split; [apply in_order_elem|apply in_order_NoDup].
Qed.

(** C9: a Prepare round with participants in which every participant
    votes OK returns OK together with the timestamp it was called
    with, and leaves the coordinator's fields as they were. *)
Theorem Prepare_ok_keeps_timestamp timestamp st :
  let P := participants (client st) in
  let k := rounds (world st) in
  P ≠ ∅ →
  all_ok k P →
  ∃ st', Prepare timestamp st = Done (REPLY_OK, timestamp) st' ∧
         client st' = client st.
Proof.
  intros P k HP Hok.
  destruct (Prepare_cases timestamp st HP) as (evs & _ & _ & Hcase).
  fold P k in Hcase.
  destruct Hcase as [[_ H]|[[Hf _]|[[Hu _]|[Hnk _]]]].
  - by eexists.
  - by apply all_ok_not_fail in Hok.
  - by apply all_ok_decided in Hok.
  - by apply all_ok_known in Hok.
Qed.

(** C10: when Prepare returns FAIL, the timestamp it returns is the
    one it was given, every field of the coordinator (participant set,
    transaction id and the others) is as before, and the clock has not
    been read. *)
Theorem Prepare_fail_changes_nothing timestamp st ts' st' :
  Prepare timestamp st = Done (REPLY_FAIL, ts') st' →
  ts' = timestamp ∧
  client st' = client st ∧
  participants (client st') = participants (client st) ∧
  t_id (client st') = t_id (client st) ∧
  ticks (world st') = ticks (world st).
Proof.
  intros Hrun.
  destruct (decide (participants (client st) = ∅)) as [HP|HP].
  - by rewrite Prepare_empty in Hrun.
  - destruct (Prepare_cases timestamp st HP) as (evs & _ & _ & Hcase).
    destruct Hcase as [[_ H]|[[_ [H _]]|[[_ H]|[_ H]]]];
      rewrite H in Hrun; by simplify_eq.
Qed.

(** ** The exact trace of a Prepare round *)

Lemma waits_of_cons op p ps :
  waits_of op (p :: ps) = [EvWait op p; EvWait op p] ++ waits_of op ps.
Proof using Type.
  clear env key_to_shard COMMIT_RETRIES GET_TIMEOUT PUT_TIMEOUT PREPARE_TIMEOUT
    ABORT_TIMEOUT.
  done. Qed.

Lemma tally_loop_trace k ps status ts st :
  let evs := waits_of OpPrepare (awaited k ps) in
  match count_votes (vote k <$> ps) status with
  | Fell s =>
      ∃ ts', for_each (round_promises k ps) tally (status, ts) st
             = Done (inl (s, ts')) (log_add evs st)
  | Returned s =>
      for_each (round_promises k ps) tally (status, ts) st
      = Done (inr s) (log_add evs st)
  | Crashed =>
      for_each (round_promises k ps) tally (status, ts) st
      = Fatal NotImplemented (log_add evs st)
  end.
Proof using Type.
  revert status ts st. induction ps as [|p ps IH]; intros status ts st.
  - simpl. exists ts. unfold log_add. by rewrite advance_nil.
  - pose proof (tally_run (mkPromise OpPrepare p PREPARE_TIMEOUT (votes env k p))
                  status ts st) as Hp.
    cbn [p_op p_shard p_res] in Hp.
    change (r_reply (votes env k p)) with (vote k p) in Hp.
    cbn [round_promises fmap list_fmap for_each count_votes awaited].
    fold (round_promises k ps). cbn zeta in Hp |- *.
    rewrite waits_of_cons.
    destruct (vote k p) eqn:Hv.
    + erewrite bind_done; [|exact Hp].
      specialize (IH status ts (log_add [EvWait OpPrepare p; EvWait OpPrepare p] st)).
      cbn zeta in IH. rewrite log_add_app in IH. exact IH.
    + by erewrite bind_done; [|exact Hp].
    + erewrite bind_done; [|exact Hp].
      specialize (IH REPLY_RETRY
                    (if getTimestamp (r_timestamp (votes env k p)) >? ts
                     then getTimestamp (r_timestamp (votes env k p)) else ts)
                    (log_add [EvWait OpPrepare p; EvWait OpPrepare p] st)).
      cbn zeta in IH. rewrite log_add_app in IH. exact IH.
    + erewrite bind_done; [|exact Hp].
      specialize (IH REPLY_RETRY ts
                    (log_add [EvWait OpPrepare p; EvWait OpPrepare p] st)).
      cbn zeta in IH. rewrite log_add_app in IH. exact IH.
    + by erewrite bind_fatal; [|exact Hp].
Qed.

(** The outcome of Prepare in full: the requests in participant order,
    then the reads of the handles up to the first decisive vote, then the
    clock when the round is undecided. *)
Lemma Prepare_trace timestamp st :
  let P := participants (client st) in
  let k := rounds (world st) in
  let now := clock env (ticks (world st)) in
  let sends := (λ p, EvPrepare p timestamp) <$> in_order P in
  let waits := waits_of OpPrepare (awaited k (in_order P)) in
  P ≠ ∅ →
  Prepare timestamp st =
  match count_votes (vote k <$> in_order P) REPLY_OK with
  | Fell s =>
      if decide (s = REPLY_RETRY)
      then Done (REPLY_RETRY,
                 setTimestamp (if now >? 0 then now else 0) timestamp)
             (advance (sends ++ waits ++ [EvClock now]) 1 1 0 st)
      else Done (s, timestamp) (advance (sends ++ waits) 1 0 0 st)
  | Returned s => Done (s, timestamp) (advance (sends ++ waits) 1 0 0 st)
  | Crashed => Fatal NotImplemented (advance (sends ++ waits) 1 0 0 st)
  end.
Proof using Type.
  intros P k now sends waits HP.
  set (st1 := log_add sends (advance [] 1 0 0 st)).
  pose proof (tally_loop_trace k (in_order P) REPLY_OK (stack_ts env k) st1)
    as Hrun. cbn zeta in Hrun. fold waits in Hrun.
  assert (Hst1 : ∀ evs r t c,
    advance evs r t c st1 = advance (sends ++ evs) (r + 1) t c st).
  { intros. unfold st1, log_add. rewrite !advance_advance. simpl.
    by rewrite !Nat.add_0_r. }
  unfold Prepare.
  erewrite bind_done; [|reflexivity].
  erewrite bind_done;
    [|by rewrite assert_participants, bool_decide_eq_true_2].
  erewrite bind_done; [|apply new_round_run].
  erewrite bind_done; [|apply send_prepares_run].
  fold P k st1.
  destruct (count_votes (vote k <$> in_order P) REPLY_OK) as [s|s|].
  - destruct Hrun as (ts' & Hrun).
    erewrite bind_done; [|exact Hrun]. cbn beta iota.
    destruct (decide (s = REPLY_RETRY)) as [->|Hs].
    + erewrite bind_done; [|apply GetTime_run].
      unfold log_add. rewrite advance_advance. simpl.
      rewrite Hst1. fold now. by destruct (now >? 0).
    + unfold log_add. rewrite Hst1. done.
  - erewrite bind_done; [|exact Hrun]. unfold log_add. by rewrite Hst1.
  - erewrite bind_fatal; [|exact Hrun]. unfold log_add. by rewrite Hst1.
Qed.

(** A vote that lets the second loop of Prepare go on. *)
Lemma awaited_all k ps :
  Forall (λ p, vote k p ≠ REPLY_FAIL ∧ vote k p ≠ REPLY_OTHER) ps →
  awaited k ps = ps.
Proof using Type.
  induction 1 as [|p ps [Hf Ho] _ IH]; [done|]. simpl.
  destruct (vote k p); by rewrite ?IH.
Qed.

Lemma awaited_decisive k l1 p l2 :
  Forall (λ q, vote k q ≠ REPLY_FAIL ∧ vote k q ≠ REPLY_OTHER) l1 →
  vote k p = REPLY_FAIL ∨ vote k p = REPLY_OTHER →
  awaited k (l1 ++ p :: l2) = l1 ++ [p].
Proof using Type.
  intros Hl Hp. induction Hl as [|q l1 [Hf Ho] _ IH]; simpl.
  - by destruct Hp as [-> | ->].
  - destruct (vote k q); by rewrite ?IH.
Qed.

Lemma count_votes_goes_on k ps s :
  Forall (λ p, vote k p ≠ REPLY_FAIL ∧ vote k p ≠ REPLY_OTHER) ps →
  ∃ s', count_votes (vote k <$> ps) s = Fell s' ∧
        (s' = s ∨ s' = REPLY_RETRY).
Proof using Type.
  intros H. revert s. induction H as [|p ps [Hf Ho] _ IH]; intros s.
  - exists s. by split; [|left].
  - simpl. destruct (vote k p); try done.
    + destruct (IH REPLY_RETRY) as (s' & Heq & [->| ->]);
        exists REPLY_RETRY; (split; [done|by right]).
    + destruct (IH REPLY_RETRY) as (s' & Heq & [->| ->]);
        exists REPLY_RETRY; (split; [done|by right]).
Qed.

Lemma count_votes_decisive k l1 p l2 s :
  Forall (λ q, vote k q ≠ REPLY_FAIL ∧ vote k q ≠ REPLY_OTHER) l1 →
  count_votes (vote k <$> l1 ++ p :: l2) s
  = match vote k p with
    | REPLY_FAIL => Returned REPLY_FAIL
    | REPLY_OTHER => Crashed
    | _ => count_votes (vote k <$> l1 ++ p :: l2) s
    end.
Proof using Type.
  intros Hl. revert s. induction Hl as [|q l1 [Hf Ho] _ IH]; intros s; simpl.
  - by destruct (vote k p).
  - destruct (vote k q); try done; rewrite IH; by destruct (vote k p).
Qed.

Lemma in_order_nonempty (P : gset Z) : in_order P ≠ [] → P ≠ ∅.
Proof using Type. intros H ->. by apply H. Qed.

(** X1: in a round in which no participant votes FAIL or an unknown
    code, Prepare first sends one request to every participant, in
    ascending order, then reads the handle of every participant (twice:
    the timestamp and the reply), and reads the clock last when it
    returns RETRY. *)
Theorem Prepare_sends_all_then_awaits_all timestamp st :
  let P := participants (client st) in
  let k := rounds (world st) in
  let now := clock env (ticks (world st)) in
  P ≠ ∅ →
  no_fail k P →
  all_known k P →
  ∃ status ts' st',
    Prepare timestamp st = Done (status, ts') st' ∧
    (status = REPLY_OK ∨ status = REPLY_RETRY) ∧
    log (world st')
    = log (world st) ++ ((λ p, EvPrepare p timestamp) <$> in_order P)
        ++ waits_of OpPrepare (in_order P)
        ++ (if decide (status = REPLY_RETRY) then [EvClock now] else []).
Proof using Type.
  intros P k now HP Hnf Hk.
  assert (Hclean : Forall (λ p, vote k p ≠ REPLY_FAIL ∧ vote k p ≠ REPLY_OTHER)
                     (in_order P)).
  { apply Forall_forall. intros p Hp%in_order_elem. split; [by apply Hnf|].
    intros Ho. specialize (Hk p Hp). simpl in Hk. by rewrite Ho in Hk. }
  rewrite Prepare_trace by done. fold P k now.
  rewrite (awaited_all _ _ Hclean).
  destruct (count_votes_goes_on k (in_order P) REPLY_OK Hclean)
    as (s & -> & [->| ->]).
  - rewrite decide_False by done. do 3 eexists. split; [done|].
    split; [by left|]. rewrite decide_False by done. simpl.
    by rewrite !app_nil_r.
  - rewrite decide_True by done. do 3 eexists. split; [done|].
    split; [by right|]. rewrite decide_True by done. done.
Qed.

(** X2: the first participant in ascending order whose vote is FAIL or
    an unknown code decides the round.  Prepare has sent a request to
    every participant, reads the handles up to that participant and no
    handle after it, and returns FAIL with the timestamp it was given if
    the vote is FAIL, or stops in NOT_IMPLEMENTED if the code is
    unknown. *)
Theorem Prepare_first_decisive_vote timestamp st l1 p l2 :
  let P := participants (client st) in
  let k := rounds (world st) in
  in_order P = l1 ++ p :: l2 →
  Forall (λ q, vote k q ≠ REPLY_FAIL ∧ vote k q ≠ REPLY_OTHER) l1 →
  vote k p = REPLY_FAIL ∨ vote k p = REPLY_OTHER →
  ∃ st',
    Prepare timestamp st
    = (if decide (vote k p = REPLY_FAIL)
       then Done (REPLY_FAIL, timestamp) st'
       else Fatal NotImplemented st') ∧
    client st' = client st ∧
    ticks (world st') = ticks (world st) ∧
    log (world st')
    = log (world st) ++ ((λ q, EvPrepare q timestamp) <$> l1 ++ p :: l2)
        ++ waits_of OpPrepare (l1 ++ [p]).
Proof using Type.
  intros P k Hsplit Hl Hp.
  assert (HP : P ≠ ∅).
  { apply in_order_nonempty. fold P. rewrite Hsplit. by destruct l1. }
  rewrite Prepare_trace by done. fold P k.
  rewrite Hsplit, count_votes_decisive, awaited_decisive by done.
  destruct Hp as [-> | ->]; eexists; (split; [done|]); done.
Qed.

(** ** The exact traces of Get and Put *)

Lemma join_participant (c : Client) i :
  i ∈ participants c → set_participants ({[i]} ∪ participants c) c = c.
Proof using Type.
  intros Hi. destruct c as [id tid n P r]. unfold set_participants. simpl in *.
  f_equal. set_solver.
Qed.

Lemma Get_trace key st :
  let c := client st in
  let i := key_to_shard key (nshards c) in
  let a := answers env (calls (world st)) in
  Get key st
  = Done (r_reply a, r_value a)
      (mkState (set_participants ({[i]} ∪ participants c) c)
         (world (advance (hello c i ++ [EvGet i key; EvWait OpGet i; EvWait OpGet i])
                   0 0 1 st))).
Proof using Type.
  intros c i a. unfold Get, hello.
  erewrite bind_done; [|reflexivity]. fold c i.
  destruct (decide (i ∈ participants c)) as [Hi|Hi].
  - rewrite join_participant by done.
    erewrite bind_done; [|reflexivity].
    erewrite bind_done; [|apply new_Promise_run].
    erewrite bind_done; [|apply emit_run].
    erewrite bind_done; [|reflexivity].
    erewrite bind_done; [|apply GetReply_run].
    unfold ret, log_add, advance. simpl. by rewrite app_nil_r, <- !app_assoc.
  - erewrite bind_done;
      [|erewrite bind_done; [apply emit_run|reflexivity]].
    erewrite bind_done; [|apply new_Promise_run].
    erewrite bind_done; [|apply emit_run].
    erewrite bind_done; [|reflexivity].
    erewrite bind_done; [|apply GetReply_run].
    unfold ret, log_add, advance. simpl. by rewrite app_nil_r, <- !app_assoc.
Qed.

Lemma Put_trace key value st :
  let c := client st in
  let i := key_to_shard key (nshards c) in
  let a := answers env (calls (world st)) in
  Put key value st
  = Done (r_reply a)
      (mkState (set_participants ({[i]} ∪ participants c) c)
         (world (advance (hello c i ++ [EvPut i key value; EvWait OpPut i])
                   0 0 1 st))).
Proof using Type.
  intros c i a. unfold Put, hello.
  erewrite bind_done; [|reflexivity]. fold c i.
  destruct (decide (i ∈ participants c)) as [Hi|Hi].
  - rewrite join_participant by done.
    erewrite bind_done; [|reflexivity].
    erewrite bind_done; [|apply new_Promise_run].
    erewrite bind_done; [|apply emit_run].
    rewrite GetReply_run.
    unfold log_add, advance. simpl. by rewrite app_nil_r, <- !app_assoc.
  - erewrite bind_done;
      [|erewrite bind_done; [apply emit_run|reflexivity]].
    erewrite bind_done; [|apply new_Promise_run].
    erewrite bind_done; [|apply emit_run].
    rewrite GetReply_run.
    unfold log_add, advance. simpl. by rewrite app_nil_r, <- !app_assoc.
Qed.

(** ** Begin before Get and Put *)

Lemma begun_set_app a b : begun_set (a ++ b) = begun_set a ∪ begun_set b.
Proof using Type.
  clear env key_to_shard COMMIT_RETRIES GET_TIMEOUT PUT_TIMEOUT PREPARE_TIMEOUT
    ABORT_TIMEOUT.
  unfold begun_set. rewrite omap_app. apply leibniz_equiv, list_to_set_app.
Qed.

Lemma disciplined_app seen tid a b :
  disciplined seen tid (a ++ b)
  ↔ disciplined seen tid a ∧ disciplined (begun_set a ∪ seen) tid b.
Proof using Type.
  clear env key_to_shard COMMIT_RETRIES GET_TIMEOUT PUT_TIMEOUT PREPARE_TIMEOUT
    ABORT_TIMEOUT.
  revert seen. induction a as [|e a IH]; intros seen.
  - simpl. assert (begun_set [] ∪ seen = seen) as -> by set_solver. naive_solver.
  - destruct e; simpl; rewrite ?IH;
      try (change (begun_set (_ :: a)) with (begun_set a); naive_solver).
    change (begun_set (EvBegin shard tid0 :: a)) with ({[shard]} ∪ begun_set a).
    assert (begun_set a ∪ ({[shard]} ∪ seen) = {[shard]} ∪ begun_set a ∪ seen)
      as -> by set_solver.
    naive_solver.
Qed.

(** One call: the shard of the key joins the participants, with a Begin
    when it is new. *)
Lemma run_call_disciplined c st :
  let P := participants (client st) in
  ∃ st' evs,
    run_call c st = Done tt st' ∧
    log (world st') = log (world st) ++ evs ∧
    t_id (client st') = t_id (client st) ∧
    participants (client st') = begun_set evs ∪ P ∧
    disciplined P (t_id (client st)) evs.
Proof using Type.
  intros P.
  set (i := key_to_shard (call_key c) (nshards (client st))).
  assert (Hhello : ∀ tail,
    (∀ seen, i ∈ seen → disciplined seen (t_id (client st)) tail) →
    begun_set tail = ∅ →
    {[i]} ∪ P = begun_set (hello (client st) i ++ tail) ∪ P ∧
    disciplined P (t_id (client st)) (hello (client st) i ++ tail)).
  { intros tail Htail Hnone. unfold hello. fold P.
    destruct (decide (i ∈ P)) as [Hi|Hi]; simpl.
    - rewrite Hnone. split; [set_solver|by apply Htail].
    - change (begun_set (EvBegin i (t_id (client st)) :: tail))
        with ({[i]} ∪ begun_set tail).
      rewrite Hnone. split; [set_solver|].
      split; [done|]. split; [done|]. apply Htail. set_solver. }
  destruct c as [key|key value]; simpl in i |- *.
  - erewrite bind_done; [|apply Get_trace]. fold i.
    destruct (Hhello [EvGet i key; EvWait OpGet i; EvWait OpGet i])
      as [Hset Hdisc]; [by intros seen Hi|done|].
    by eexists _, _.
  - erewrite bind_done; [|apply Put_trace]. fold i.
    destruct (Hhello [EvPut i key value; EvWait OpPut i])
      as [Hset Hdisc]; [by intros seen Hi|done|].
    by eexists _, _.
Qed.

Lemma run_calls_disciplined cs st :
  let P := participants (client st) in
  ∃ st' evs,
    run_calls cs st = Done tt st' ∧
    log (world st') = log (world st) ++ evs ∧
    t_id (client st') = t_id (client st) ∧
    participants (client st') = begun_set evs ∪ P ∧
    disciplined P (t_id (client st)) evs.
Proof using Type.
  revert st. induction cs as [|c cs IH]; intros st P.
  - exists st, []. rewrite app_nil_r. repeat split; try done. set_solver.
  - destruct (run_call_disciplined c st)
      as (st1 & evs1 & Hrun1 & Hlog1 & Htid1 & HP1 & Hd1).
    destruct (IH st1) as (st' & evs & Hrun & Hlog & Htid & HP & Hd).
    exists st', (evs1 ++ evs). cbn [run_calls].
    erewrite bind_done; [|exact Hrun1].
    split; [done|]. split; [by rewrite Hlog, Hlog1, app_assoc|].
    split; [congruence|]. split.
    + rewrite HP, HP1, begun_set_app. fold P. set_solver.
    + apply disciplined_app. split; [done|].
      cbn zeta in Hd. rewrite HP1, Htid1 in Hd. exact Hd.
Qed.

(** X3: in a transaction every shard is sent Begin at most once, always
    with the id of the transaction, and before any Get or Put is sent to
    it; the participant set is the set of shards that were sent a
    Begin. *)
Theorem Begin_precedes_every_access st cs :
  ∃ st0 st1 evs,
    Begin st = Done tt st0 ∧
    run_calls cs st0 = Done tt st1 ∧
    log (world st1) = log (world st) ++ evs ∧
    t_id (client st1) = incr64 (t_id (client st)) ∧
    disciplined ∅ (incr64 (t_id (client st))) evs ∧
    participants (client st1) = begun_set evs.
Proof using Type.
  rewrite Begin_run. set (st0 := mkState _ _).
  destruct (run_calls_disciplined cs st0)
    as (st1 & evs & Hrun & Hlog & Htid & HP & Hd).
  exists st0, st1, evs. repeat split; try done.
  rewrite HP. simpl. set_solver.
Qed.

(** X4: whatever the handle of a Get or of a Put resolves to (OK, FAIL,
    a timeout, anything), the call returns that reply code (and value)
    and does not stop fatally; the shard of the key is a participant
    afterwards, the transaction id is unchanged, and an Abort that
    follows sends that shard an Abort. *)
Theorem failed_access_keeps_the_participant key value st :
  let i := key_to_shard key (nshards (client st)) in
  let a := answers env (calls (world st)) in
  (∃ st', Get key st = Done (r_reply a, r_value a) st' ∧
          i ∈ participants (client st') ∧
          t_id (client st') = t_id (client st) ∧
          ∃ st'' evs, Abort st' = Done tt st'' ∧
                      log (world st'') = log (world st') ++ evs ∧
                      EvAbort i ∈ evs) ∧
  (∃ st', Put key value st = Done (r_reply a) st' ∧
          i ∈ participants (client st') ∧
          t_id (client st') = t_id (client st) ∧
          ∃ st'' evs, Abort st' = Done tt st'' ∧
                      log (world st'') = log (world st') ++ evs ∧
                      EvAbort i ∈ evs).
Proof using Type.
  intros i a.
  assert (Habort : ∀ st', i ∈ participants (client st') →
    ∃ st'' evs, Abort st' = Done tt st'' ∧
                log (world st'') = log (world st') ++ evs ∧ EvAbort i ∈ evs).
  { intros st' Hi. eexists _, _. split; [apply Abort_run|]. split; [done|].
    unfold abort_round. apply elem_of_app. left.
    apply list_elem_of_fmap. exists i. split; [done|by apply in_order_elem]. }
  split.
  - eexists. split; [apply Get_trace|]. fold i. simpl.
    split; [set_solver|]. split; [done|]. apply Habort. simpl. set_solver.
  - eexists. split; [apply Put_trace|]. fold i. simpl.
    split; [set_solver|]. split; [done|]. apply Habort. simpl. set_solver.
Qed.

(** ** The trace and the counters of the retry loop *)

Lemma vote_traffic_round timestamp ps qs tail :
  Forall vote_traffic tail →
  Forall vote_traffic
    (((λ p, EvPrepare p timestamp) <$> ps) ++ waits_of OpPrepare qs ++ tail).
Proof using Type.
  clear env key_to_shard COMMIT_RETRIES GET_TIMEOUT PUT_TIMEOUT PREPARE_TIMEOUT
    ABORT_TIMEOUT.
  intros Htail. apply Forall_app. split.
  - by apply Forall_fmap, Forall_forall.
  - apply Forall_app. split; [|done].
    induction qs as [|q qs IH]; [done|].
    rewrite waits_of_cons. by repeat constructor.
Qed.

(** The loop changes no field of the coordinator but [retries], which
    it advances by the number [r] of rounds that returned RETRY; it reads
    the clock once in each of those rounds; it runs [r] or [r + 1]
    rounds; and it sends and awaits nothing but vote traffic. *)
Lemma retry_loop_counts n status timestamp st :
  let o := retry_loop n status timestamp st in
  ∃ (r d : nat) evs,
    log (world (final o)) = log (world st) ++ evs ∧
    Forall vote_traffic evs ∧
    client_id (client (final o)) = client_id (client st) ∧
    t_id (client (final o)) = t_id (client st) ∧
    nshards (client (final o)) = nshards (client st) ∧
    participants (client (final o)) = participants (client st) ∧
    retries (client (final o)) = retries (client st) + Z.of_nat r ∧
    ticks (world (final o)) = (r + ticks (world st))%nat ∧
    calls (world (final o)) = calls (world st) ∧
    rounds (world (final o)) = (d + rounds (world st))%nat ∧
    (d = r ∨ d = S r) ∧ (d ≤ n)%nat.
Proof using Type.
  revert status timestamp st.
  induction n as [|n IH]; intros status timestamp st o; subst o.
  { exists 0%nat, 0%nat, []. simpl. rewrite app_nil_r, Z.add_0_r.
    repeat split; try done. by left. }
  destruct (decide (participants (client st) = ∅)) as [HP|HP].
  { rewrite retry_loop_empty by done.
    exists 0%nat, 0%nat, []. simpl. rewrite app_nil_r, Z.add_0_r.
    repeat split; try done; [by left|lia]. }
  rewrite retry_loop_S, Prepare_trace by done.
  set (sends := (λ p, EvPrepare p timestamp) <$> _).
  set (waits := waits_of OpPrepare _).
  set (now := clock env _).
  assert (Htraffic : ∀ tail, Forall vote_traffic tail →
                             Forall vote_traffic (sends ++ waits ++ tail))
    by (intros; by apply vote_traffic_round).
  pose proof (Htraffic [] (Forall_nil_2 _)) as Htraffic0.
  rewrite app_nil_r in Htraffic0.
  destruct (count_votes _ REPLY_OK) as [s|s|] eqn:Hc.
  - destruct (decide (s = REPLY_RETRY)) as [->|Hs].
    + rewrite decide_True by done.
      set (st2 := mkState _ _).
      destruct (IH REPLY_RETRY
                  (setTimestamp (if now >? 0 then now else 0) timestamp) st2)
        as (r & d & evs & Hlog & Htr & Hid & Htid & Hn & HP' & Hret & Htick
            & Hcalls & Hrounds & Hd & Hdn).
      exists (S r), (S d), ((sends ++ waits ++ [EvClock now]) ++ evs).
      rewrite Hlog, Hid, Htid, Hn, HP', Hret, Htick, Hcalls, Hrounds. simpl.
      rewrite <- !app_assoc.
      repeat split; try done; try lia.
      rewrite !app_assoc. apply Forall_app. split; [|done].
      rewrite <- !app_assoc. apply Htraffic. by repeat constructor.
    + rewrite decide_False by done.
      exists 0%nat, 1%nat, (sends ++ waits). simpl. rewrite Z.add_0_r.
      repeat split; try done; [by right|lia].
  - apply count_votes_returned in Hc as [-> _].
    rewrite decide_False by done.
    exists 0%nat, 1%nat, (sends ++ waits). simpl. rewrite Z.add_0_r.
    repeat split; try done; [by right|lia].
  - exists 0%nat, 1%nat, (sends ++ waits). simpl. rewrite Z.add_0_r.
    repeat split; try done; [by right|lia].
Qed.

(** X5: Commit sends Commit requests only when it returns [true], and
    then one [Commit(0)] to every participant, without waiting for any
    answer and without any Abort; when it returns [false] it has sent no
    Commit request and ends with the Abort round; when it stops fatally
    it has sent neither.  Everything before is vote traffic: Prepare
    requests, reads of Prepare handles and of the clock. *)
Theorem Commit_sends_commits_or_aborts st :
  let P := participants (client st) in
  ∃ evs,
    Forall vote_traffic evs ∧
    match Commit st with
    | Done true st' =>
        log (world st')
        = log (world st) ++ evs ++ ((λ p, EvCommit p 0) <$> in_order P)
    | Done false st' =>
        log (world st') = log (world st) ++ evs ++ abort_round P
    | Fatal _ st' => log (world st') = log (world st) ++ evs
    end.
Proof using Type.
  intros P. rewrite Commit_run.
  set (now := clock env _). set (st0 := mkState _ _).
  destruct (retry_loop_counts (Z.to_nat (COMMIT_RETRIES - 0)) (stack_status env)
              (mkTimestamp now (client_id (client st))) st0)
    as (r & d & evs & Hlog & Htr & _ & _ & _ & HP & _).
  change (log (world st0)) with (log (world st) ++ [EvClock now]) in Hlog.
  change (participants (client st0)) with P in HP.
  exists (EvClock now :: evs). split; [by constructor|].
  destruct (retry_loop _ _ _ st0) as [[status ts'] st'|why st'];
    simpl in Hlog, HP; cbv zeta.
  - destruct (decide (status = REPLY_OK)); simpl;
      by rewrite Hlog, HP, <- !app_assoc.
  - by rewrite Hlog, <- !app_assoc.
Qed.

(** X6: Commit changes no field of the coordinator but [retries]: the
    client id, the transaction id, the number of shards and the
    participant set are as before.  When Commit ends, [retries] is the
    number [r] of Prepare rounds that returned RETRY, which is at most
    COMMIT_RETRIES; Commit has run [r] or [r + 1] rounds and has read the
    clock [r + 1] times, once at the start and once in each of those
    rounds. *)
Theorem Commit_counts_its_retries st :
  let o := Commit st in
  ∃ r : nat,
    retries (client (final o)) = Z.of_nat r ∧
    (r ≤ Z.to_nat COMMIT_RETRIES)%nat ∧
    ticks (world (final o)) = S (r + ticks (world st)) ∧
    (rounds (world (final o)) = (r + rounds (world st))%nat ∨
     rounds (world (final o)) = (S r + rounds (world st))%nat) ∧
    client_id (client (final o)) = client_id (client st) ∧
    t_id (client (final o)) = t_id (client st) ∧
    nshards (client (final o)) = nshards (client st) ∧
    participants (client (final o)) = participants (client st).
Proof using Type.
  intros o. subst o. rewrite Commit_run.
  set (now := clock env _). set (st0 := mkState _ _).
  rewrite Z.sub_0_r.
  destruct (retry_loop_counts (Z.to_nat COMMIT_RETRIES) (stack_status env)
              (mkTimestamp now (client_id (client st))) st0)
    as (r & d & evs & _ & _ & Hid & Htid & Hn & HP & Hret & Htick & _
        & Hrounds & Hd & Hdn).
  exists r.
  assert (Hr : (r ≤ Z.to_nat COMMIT_RETRIES)%nat) by lia.
  assert (Hrd : d = r ∨ d = S r) by done.
  destruct (retry_loop _ _ _ st0) as [[status ts'] st'|why st'];
    simpl in Hid, Htid, Hn, HP, Hret, Htick, Hrounds; cbv zeta.
  - destruct (decide (status = REPLY_OK)); simpl;
      rewrite Hid, Htid, Hn, HP, Hret, Htick, Hrounds;
      (repeat split; try done; try lia).
  - simpl. rewrite Hid, Htid, Hn, HP, Hret, Htick, Hrounds.
    repeat split; try done; lia.
Qed.

(** ** The timestamps of the Prepare requests *)

Lemma stamped_app id cur a b :
  stamped id cur (a ++ b)
  ↔ stamped id cur a ∧ stamped id (clock_after cur a) b.
Proof using Type.
  clear env key_to_shard COMMIT_RETRIES GET_TIMEOUT PUT_TIMEOUT PREPARE_TIMEOUT
    ABORT_TIMEOUT.
  revert cur. induction a as [|e a IH]; intros cur; [simpl; naive_solver|].
  destruct e; simpl; rewrite ?IH; naive_solver.
Qed.

Lemma clock_after_app cur a b :
  clock_after cur (a ++ b) = clock_after (clock_after cur a) b.
Proof using Type.
  clear env key_to_shard COMMIT_RETRIES GET_TIMEOUT PUT_TIMEOUT PREPARE_TIMEOUT
    ABORT_TIMEOUT.
  revert cur. induction a as [|e a IH]; intros cur; [done|].
  destruct e; simpl; by rewrite ?IH.
Qed.

(** Events that neither ask for a vote nor read the clock. *)
Lemma stamped_quiet id cur evs :
  Forall (λ e, prepared e = None ∧ ∀ now, e ≠ EvClock now) evs →
  stamped id cur evs ∧ clock_after cur evs = cur.
Proof using Type.
  clear env key_to_shard COMMIT_RETRIES GET_TIMEOUT PUT_TIMEOUT PREPARE_TIMEOUT
    ABORT_TIMEOUT.
  induction 1 as [|e evs [Hp Hc] _ IH]; [done|].
  destruct e; simpl; try done. by destruct (Hc now).
Qed.

Lemma stamped_sends id cur ps :
  stamped id cur ((λ p, EvPrepare p (mkTimestamp cur id)) <$> ps) ∧
  clock_after cur ((λ p, EvPrepare p (mkTimestamp cur id)) <$> ps) = cur.
Proof using Type.
  clear env key_to_shard COMMIT_RETRIES GET_TIMEOUT PUT_TIMEOUT PREPARE_TIMEOUT
    ABORT_TIMEOUT.
  induction ps as [|p ps [IH1 IH2]]; [done|]. simpl. by split. Qed.

Lemma waits_quiet op ps :
  Forall (λ e, prepared e = None ∧ ∀ now, e ≠ EvClock now) (waits_of op ps).
Proof using Type.
  clear env key_to_shard COMMIT_RETRIES GET_TIMEOUT PUT_TIMEOUT PREPARE_TIMEOUT
    ABORT_TIMEOUT.
  induction ps as [|p ps IH]; [done|]. rewrite waits_of_cons.
  by repeat constructor.
Qed.

(** One round sent with the timestamp ([cur], [id]). *)
Lemma stamped_round id cur ps qs :
  stamped id cur
    (((λ p, EvPrepare p (mkTimestamp cur id)) <$> ps) ++ waits_of OpPrepare qs) ∧
  clock_after cur
    (((λ p, EvPrepare p (mkTimestamp cur id)) <$> ps) ++ waits_of OpPrepare qs)
  = cur.
Proof using Type.
  clear env key_to_shard COMMIT_RETRIES GET_TIMEOUT PUT_TIMEOUT PREPARE_TIMEOUT
    ABORT_TIMEOUT.
  destruct (stamped_sends id cur ps) as [H1 H2].
  destruct (stamped_quiet id cur _ (waits_quiet OpPrepare qs)) as [H3 H4].
  rewrite stamped_app, clock_after_app, H2. by split.
Qed.

(** With a clock that never reads below zero, as a [uint64_t] clock,
    every round of the loop is stamped with the latest reading. *)
Lemma retry_loop_stamped n status id cur st :
  (∀ m, 0 ≤ clock env m) →
  let o := retry_loop n status (mkTimestamp cur id) st in
  ∃ evs,
    log (world (final o)) = log (world st) ++ evs ∧ stamped id cur evs.
Proof using Type.
  intros Hclock. revert status cur st.
  induction n as [|n IH]; intros status cur st o; subst o.
  { exists []. simpl. by rewrite app_nil_r. }
  destruct (decide (participants (client st) = ∅)) as [HP|HP].
  { rewrite retry_loop_empty by done. exists []. simpl. by rewrite app_nil_r. }
  rewrite retry_loop_S, Prepare_trace by done.
  set (sends := (λ p, EvPrepare p (mkTimestamp cur id)) <$> _).
  set (waits := waits_of OpPrepare _).
  set (now := clock env _).
  destruct (stamped_round id cur (in_order (participants (client st)))
              (awaited (rounds (world st)) (in_order (participants (client st)))))
    as [Hst Hcl].
  fold sends waits in Hst, Hcl.
  destruct (count_votes _ REPLY_OK) as [s|s|] eqn:Hc.
  - destruct (decide (s = REPLY_RETRY)) as [->|Hs].
    + rewrite decide_True by done.
      assert (Hnow : setTimestamp (if now >? 0 then now else 0)
                       (mkTimestamp cur id) = mkTimestamp now id).
      { unfold setTimestamp. simpl. f_equal.
        destruct (Z.gtb_spec now 0) as [|Hle]; [done|].
        pose proof (Hclock (ticks (world st))) as Hge. fold now in Hge.
        by apply Z.le_antisymm. }
      rewrite Hnow. set (st2 := mkState _ _).
      destruct (IH REPLY_RETRY now st2) as (evs & Hlog & Hevs).
      exists ((sends ++ waits ++ [EvClock now]) ++ evs).
      split; [rewrite Hlog; simpl; by rewrite <- !app_assoc|].
      rewrite !app_assoc, stamped_app, <- !app_assoc. split.
      * rewrite app_assoc, stamped_app. split; [done|]. done.
      * rewrite app_assoc, clock_after_app. simpl. done.
    + rewrite decide_False by done. exists (sends ++ waits). by split.
  - apply count_votes_returned in Hc as [-> _].
    rewrite decide_False by done. exists (sends ++ waits). by split.
  - exists (sends ++ waits). by split.
Qed.

(** X7: with a clock that never reads below zero, every Prepare
    request that Commit sends carries the client id of the coordinator
    and the latest reading of the clock before the request: the reading
    at the start of Commit for the first round, the reading taken at the
    end of the previous round for every later one. *)
Theorem Commit_stamps_with_the_latest_clock st cur :
  (∀ m, 0 ≤ clock env m) →
  ∃ evs,
    log (world (final (Commit st))) = log (world st) ++ evs ∧
    stamped (client_id (client st)) cur evs.
Proof using Type.
  intros Hclock. rewrite Commit_run.
  set (now := clock env _). set (st0 := mkState _ _).
  destruct (retry_loop_stamped (Z.to_nat (COMMIT_RETRIES - 0)) (stack_status env)
              (client_id (client st)) now st0 Hclock) as (evs & Hlog & Hevs).
  destruct (retry_loop_counts (Z.to_nat (COMMIT_RETRIES - 0)) (stack_status env)
              (mkTimestamp now (client_id (client st))) st0)
    as (_ & _ & _ & _ & _ & _ & _ & _ & HP & _).
  change (log (world st0)) with (log (world st) ++ [EvClock now]) in Hlog.
  assert (Hquiet : ∀ tail,
    Forall (λ e, prepared e = None ∧ ∀ now, e ≠ EvClock now) tail →
    stamped (client_id (client st)) cur (EvClock now :: evs ++ tail)).
  { intros tail Htail. simpl. apply stamped_app. split; [done|].
    by apply stamped_quiet. }
  destruct (retry_loop _ _ _ st0) as [[status ts'] st'|why st'];
    simpl in Hlog, HP; cbv zeta.
  - destruct (decide (status = REPLY_OK)); simpl.
    + exists (EvClock now :: evs ++ ((λ p, EvCommit p 0)
                                      <$> in_order (participants (client st')))).
      split; [simpl; by rewrite Hlog, <- !app_assoc|].
      apply Hquiet, Forall_fmap, Forall_forall. by intros.
    + exists (EvClock now :: evs ++ abort_round (participants (client st'))).
      split; [simpl; by rewrite Hlog, <- !app_assoc|].
      apply Hquiet. unfold abort_round.
      apply Forall_app; split; apply Forall_fmap, Forall_forall; by intros.
  - exists (EvClock now :: evs). split; [simpl; by rewrite Hlog, <- !app_assoc|].
    specialize (Hquiet [] (Forall_nil_2 _)). by rewrite app_nil_r in Hquiet.
Qed.

(** ** Commit with well-behaved shards *)

(** X8: with a positive retry bound, at least one participant and shards
    that answer Prepare with the four reply codes only, Commit never
    stops fatally: it returns [true] or [false]. *)
Theorem Commit_returns_when_votes_are_known st :
  let P := participants (client st) in
  0 < COMMIT_RETRIES →
  P ≠ ∅ →
  (∀ k, (rounds (world st) ≤ k)%nat → all_known k P) →
  ∃ b st', Commit st = Done b st'.
Proof using Type.
  intros P Hpos HP Hknown.
  destruct (Commit_cases st Hpos HP) as (m & evs & _ & _ & _ & _ & _ & _ & Hlast).
  fold P in Hlast.
  assert (Hk : all_known (rounds (world st) + m) P) by (apply Hknown; lia).
  destruct (Commit st) as [b st'|why st']; [by eexists _, _|].
  simpl in Hlast.
  destruct Hlast as [(_ & [=] & _)|[(_ & [=] & _)|[(_ & _ & [=] & _)
                    |(Hnk & _)]]].
  done.
Qed.

(** ** Begin *)

Lemma begins_run n st :
  0 ≤ t_id (client st) < 2 ^ 64 →
  ∃ st',
    begins n st = Done tt st' ∧
    world st' = world st ∧
    client_id (client st') = client_id (client st) ∧
    nshards (client st') = nshards (client st) ∧
    t_id (client st') = (t_id (client st) + Z.of_nat n) mod 2 ^ 64 ∧
    (n ≠ 0%nat → participants (client st') = ∅).
Proof using Type.
  revert st. induction n as [|n IH]; intros st Ht.
  - exists st. rewrite Z.add_0_r, Z.mod_small by done. by repeat split.
  - cbn [begins]. erewrite bind_done; [|apply Begin_run].
    set (st1 := mkState _ _).
    destruct (IH st1) as (st' & Hrun & Hw & Hid & Hn & Htid & HP).
    { simpl. unfold incr64. apply Z.mod_pos_bound. lia. }
    exists st'. split; [done|]. split; [done|]. split; [done|].
    split; [done|]. split.
    + rewrite Htid. simpl. unfold incr64.
      rewrite Zplus_mod_idemp_l. f_equal. lia.
    + intros _. destruct n; [|by apply HP].
      cbn [begins] in Hrun. by injection Hrun as <-.
Qed.

(** X9: Begin talks to nobody: [n] calls of Begin in a row leave the
    outside world as it is (no request, no wait, no reading of the clock)
    and move the transaction id, a [uint64_t], [n] steps ahead, wrapping
    to 0 after 2^64 - 1; short of the wrap the ids of successive
    transactions are consecutive.  After at least one Begin the
    participant set is empty. *)
Theorem Begin_numbers_the_transactions n st :
  0 ≤ t_id (client st) < 2 ^ 64 →
  ∃ st',
    begins n st = Done tt st' ∧
    world st' = world st ∧
    t_id (client st') = (t_id (client st) + Z.of_nat n) mod 2 ^ 64 ∧
    (t_id (client st) + Z.of_nat n < 2 ^ 64 →
     t_id (client st') = t_id (client st) + Z.of_nat n) ∧
    (n ≠ 0%nat → participants (client st') = ∅).
Proof using Type.
  intros Ht. destruct (begins_run n st Ht) as (st' & Hrun & Hw & _ & _ & Htid & HP).
  exists st'. repeat split; try done.
  intros Hlt. rewrite Htid. apply Z.mod_small. lia.
Qed.

(** X10: a Begin in the middle of a transaction drops the participant
    set without telling the shards: the Begin sends nothing, and an Abort
    right after it sends nothing either, whatever shards the dropped
    transaction had touched. *)
Theorem Begin_then_Abort_is_silent st :
  ∃ st',
    (Begin;; Abort) st = Done tt st' ∧
    world st' = world st ∧
    participants (client st') = ∅ ∧
    t_id (client st') = incr64 (t_id (client st)).
Proof using Type.
  erewrite bind_done; [|apply Begin_run].
  rewrite Abort_run. cbn [client participants set_participants].
  eexists. split; [done|]. unfold abort_round. rewrite in_order_empty.
  cbn [fmap list_fmap app length]. rewrite advance_nil. done.
Qed.

End Coordinator.

(** ** The specification's scenario C on the code *)

(** C1: in scenario C the two participants vote RETRY and propose 100
    and 50 while the clock reads 80; Prepare returns RETRY with the
    timestamp 80, the clock reading, which is not the maximum of the
    clock reading and the proposals and is below the proposal of
    shard 0. *)
Theorem Prepare_retry_candidate_ignores_proposals :
  let st := Scenario.coordinator {[0; 1]} in
  let now := clock Scenario.C (ticks (world st)) in
  vote Scenario.C 0 0 = REPLY_RETRY ∧ proposal Scenario.C 0 0 = 100 ∧
  vote Scenario.C 0 1 = REPLY_RETRY ∧ proposal Scenario.C 0 1 = 50 ∧
  now = 80 ∧
  ∃ st' ts',
    Prepare Scenario.C 1000 (mkTimestamp 10 70001) st
    = Done (REPLY_RETRY, ts') st' ∧
    getTimestamp ts' = 80 ∧
    getTimestamp ts'
    ≠ Z.max now (Z.max (proposal Scenario.C 0 0) (proposal Scenario.C 0 1)) ∧
    getTimestamp ts' < proposal Scenario.C 0 0.
Proof.
  do 5 (split; [reflexivity|]).
  eexists _, (mkTimestamp 80 70001).
  split; [vm_compute; reflexivity|]. split; [reflexivity|].
  split; [discriminate|reflexivity].
Qed.

(** ** The properties at concrete runs *)

Lemma Commit_true_iff_final_round_all_ok_witness :
  let st := Scenario.coordinator {[0; 2]} in
  let o := Commit Scenario.accepting 3 1000 1000 st in
  0 < 3 ∧
  returned o = Some true ∧
  (returned o = Some true ↔
     (rounds (world st) < rounds (world (final o)))%nat ∧
     all_ok Scenario.accepting (rounds (world (final o)) - 1) {[0; 2]}).
Proof.
  split; [lia|]. split; [vm_compute; reflexivity|].
  exact (Commit_true_iff_final_round_all_ok Scenario.accepting 3 1000 1000
           (Scenario.coordinator {[0; 2]}) eq_refl).
Defined.

Lemma fail_vote_aborts_on_every_participant_witness :
  let st := Scenario.coordinator {[1; 2]} in
  let o := Commit Worlds.garbled 3 1000 1000 st in
  fail_reached Worlds.garbled 0 {[1; 2]} ∧
  vote Worlds.garbled 0 2 = REPLY_OTHER ∧
  (rounds (world st) ≤ 0 < rounds (world (final o)))%nat ∧
  (∃ st' evs q,
     Prepare Worlds.garbled 1000 (mkTimestamp 10 70001) st
     = Done (REPLY_FAIL, mkTimestamp 10 70001) st' ∧
     log (world st') = log (world st) ++ evs ++ [EvWait OpPrepare q] ∧
     q ∈ ({[1; 2]} : gset Z) ∧ vote Worlds.garbled 0 q = REPLY_FAIL) ∧
  rounds (world (final o)) = 1%nat ∧
  returned o = Some false ∧
  (∃ evs,
     log (world (final o)) = log (world st) ++ evs ++ abort_round {[1; 2]} ∧
     prepares evs = mjoin (replicate 1 (in_order {[1; 2]}))).
Proof.
  intros st o.
  assert (Hf : fail_reached Worlds.garbled 0 {[1; 2]}).
  { exists [], 1, [2]. split; [vm_compute; reflexivity|].
    split; [constructor|reflexivity]. }
  assert (Hr : (rounds (world st) ≤ 0 < rounds (world (final o)))%nat).
  { vm_compute. lia. }
  destruct (fail_vote_aborts_on_every_participant Worlds.garbled 3 1000 1000
              st 0 Hf Hr) as (H1 & H2 & H3 & H4 & _).
  split; [exact Hf|]. split; [reflexivity|].
  split; [exact Hr|].
  split; [exact (H1 st (mkTimestamp 10 70001) eq_refl eq_refl)|].
  split; [exact H2|]. split; [exact H3|exact H4].
Defined.

(** C3 as the specification states it fails where an unknown code comes
    before the FAIL vote: with the participants 0 and 1, shard 0
    answering with a code that is none of the four and shard 1 voting
    FAIL, Commit runs the round, Prepare stops in [NOT_IMPLEMENTED]
    after reading the handle of shard 0 and never reads the FAIL vote,
    Commit returns nothing, and no Abort request is sent. *)
Lemma fail_vote_behind_unknown_code_is_not_read :
  let st := Scenario.coordinator {[0; 1]} in
  let o := Commit Worlds.garbled 3 1000 1000 st in
  some_fail Worlds.garbled 0 {[0; 1]} ∧
  (rounds (world st) ≤ 0 < rounds (world (final o)))%nat ∧
  (∀ timestamp st',
     Prepare Worlds.garbled 1000 timestamp st
     ≠ Done (REPLY_FAIL, timestamp) st') ∧
  o = Fatal NotImplemented (final o) ∧
  (EvWait OpPrepare 1 ∉ log (world (final o))) ∧
  (returned o ≠ Some false) ∧
  (∀ p, EvAbort p ∉ log (world (final o))).
Proof.
  intros st o. split.
  { exists 1. split; [set_solver|reflexivity]. }
  split; [vm_compute; lia|]. split; [|split; [vm_compute; reflexivity|]].
  { intros timestamp st'.
    assert (Hrun : Prepare Worlds.garbled 1000 timestamp st
                   = Fatal NotImplemented (final (Prepare Worlds.garbled 1000 timestamp st))).
    { vm_compute. reflexivity. }
    rewrite Hrun. discriminate. }
  assert (Hlog : log (world (final o))
    = [EvClock 80; EvPrepare 0 (mkTimestamp 80 70001);
       EvPrepare 1 (mkTimestamp 80 70001);
       EvWait OpPrepare 0; EvWait OpPrepare 0]).
  { vm_compute. reflexivity. }
  split; [rewrite Hlog; set_solver|].
  split; [vm_compute; discriminate|].
  intros p. rewrite Hlog. set_solver.
Qed.

Lemma Commit_retries_bounded_witness :
  let st := Scenario.coordinator {[0; 1; 2]} in
  let o := Commit Scenario.D 3 1000 1000 st in
  0 < 3 ∧
  (∀ k, (0 ≤ k)%nat → Z.of_nat k < Z.of_nat 0 + 3 →
        undecided Scenario.D k {[0; 1; 2]}) ∧
  Z.of_nat (rounds (world (final o)) - 0) ≤ 3 ∧
  Z.of_nat (rounds (world (final o)) - 0) = 3 ∧
  returned o = Some false ∧
  (∃ evs, log (world (final o))
          = log (world st) ++ evs ++ abort_round {[0; 1; 2]}).
Proof.
  intros st o.
  assert (Hu : ∀ k, (0 ≤ k)%nat → Z.of_nat k < Z.of_nat 0 + 3 →
                    undecided Scenario.D k {[0; 1; 2]}).
  { intros k _ _. split; [|split].
    - intros p _. discriminate.
    - intros p _. reflexivity.
    - exists 0. split; [set_solver|]. right. reflexivity. }
  destruct (Commit_retries_bounded Scenario.D 3 1000 1000 st eq_refl)
    as (Hb & _ & Hex).
  destruct (Hex Hu) as (H1 & H2 & H3 & _).
  split; [reflexivity|]. split; [exact Hu|]. split; [exact Hb|].
  split; [exact H1|]. split; [exact H2|exact H3].
Defined.

Lemma Commit_without_participants_is_fatal_witness :
  let idle := Scenario.coordinator ∅ in
  let busy := Scenario.coordinator {[1]} in
  0 < 3 ∧
  participants (client idle) = ∅ ∧
  participants (client busy) ≠ ∅ ∧
  (∃ st', Commit Scenario.accepting 3 1000 1000 idle = Fatal AssertFailed st' ∧
          log (world st') = log (world idle) ++ [EvClock 80] ∧
          rounds (world st') = rounds (world idle)) ∧
  (∀ st', Commit Scenario.accepting 3 1000 1000 busy ≠ Fatal AssertFailed st').
Proof.
  intros idle busy.
  assert (Hbusy : participants (client busy) ≠ ∅).
  { intros H. assert (H1 : 1 ∈ ({[1]} : gset Z)) by set_solver.
    simpl in H. rewrite H in H1. by apply not_elem_of_empty in H1. }
  split; [reflexivity|]. split; [reflexivity|]. split; [exact Hbusy|]. split.
  - exact (proj1 (Commit_without_participants_is_fatal Scenario.accepting
                    3 1000 1000 idle eq_refl) eq_refl).
  - exact (proj2 (Commit_without_participants_is_fatal Scenario.accepting
                    3 1000 1000 busy eq_refl) Hbusy).
Defined.


Lemma Prepare_ok_keeps_timestamp_witness :
  let st := Scenario.coordinator {[0; 2]} in
  participants (client st) ≠ ∅ ∧
  all_ok Scenario.accepting 0 {[0; 2]} ∧
  ∃ st', Prepare Scenario.accepting 1000 (mkTimestamp 10 70001) st
         = Done (REPLY_OK, mkTimestamp 10 70001) st' ∧
         client st' = client st.
Proof.
  intros st.
  assert (HP : participants (client st) ≠ ∅).
  { intros H. assert (H0 : 0 ∈ ({[0; 2]} : gset Z)) by set_solver.
    simpl in H. rewrite H in H0. by apply not_elem_of_empty in H0. }
  assert (Hok : all_ok Scenario.accepting 0 {[0; 2]}).
  { intros p _. reflexivity. }
  split; [exact HP|]. split; [exact Hok|].
  exact (Prepare_ok_keeps_timestamp Scenario.accepting 1000
           (mkTimestamp 10 70001) st HP Hok).
Defined.

Lemma Prepare_fail_changes_nothing_witness :
  let st := Scenario.coordinator {[0; 1]} in
  let ts := mkTimestamp 10 70001 in
  let st' := final (Prepare Scenario.B 1000 ts st) in
  Prepare Scenario.B 1000 ts st = Done (REPLY_FAIL, ts) st' ∧
  client st' = client st ∧
  ticks (world st') = ticks (world st).
Proof.
  intros st ts st'.
  assert (H : Prepare Scenario.B 1000 ts st = Done (REPLY_FAIL, ts) st').
  { vm_compute. reflexivity. }
  destruct (Prepare_fail_changes_nothing Scenario.B 1000 ts st ts st' H)
    as (_ & H1 & _ & _ & H2).
  split; [exact H|]. split; [exact H1|exact H2].
Defined.

(** ** What the outcome of Prepare and Commit depends on *)

Lemma awaited_ext env1 env2 k ps :
  (∀ p, vote env1 k p = vote env2 k p) →
  awaited env1 k ps = awaited env2 k ps.
Proof.
  intros Hv. induction ps as [|p ps IH]; [done|]. simpl. by rewrite Hv, IH.
Qed.

Lemma Prepare_ext env1 env2 T1 T2 timestamp st :
  (∀ m, clock env1 m = clock env2 m) →
  (∀ k p, vote env1 k p = vote env2 k p) →
  Prepare env1 T1 timestamp st = Prepare env2 T2 timestamp st.
Proof.
  intros Hclock Hvote.
  destruct (decide (participants (client st) = ∅)) as [HP|HP].
  - by rewrite !Prepare_empty.
  - rewrite !Prepare_trace by done.
    rewrite (awaited_ext env1 env2) by done.
    rewrite (list_fmap_ext (vote env1 (rounds (world st)))
               (vote env2 (rounds (world st)))) by (intros; apply Hvote).
    by rewrite Hclock.
Qed.

Lemma retry_loop_ext env1 env2 T1 T2 n s1 s2 timestamp st :
  (∀ m, clock env1 m = clock env2 m) →
  (∀ k p, vote env1 k p = vote env2 k p) →
  retry_loop env1 T1 (S n) s1 timestamp st
  = retry_loop env2 T2 (S n) s2 timestamp st.
Proof.
  intros Hclock Hvote. revert s1 s2 timestamp st.
  induction n as [|n IH]; intros s1 s2 timestamp st;
    rewrite !retry_loop_S, (Prepare_ext env1 env2 T1 T2) by done;
    destruct (Prepare env2 T2 timestamp st) as [[s ts'] st'|]; try done;
    destruct (decide (s = REPLY_RETRY)); done.
Qed.

(** X11: the outcome of Commit (the value it returns, the state it
    leaves, every event of its log) depends on the outside world through
    the readings of the clock and the reply codes of the Prepare votes
    alone.  The timestamps that the shards propose, what the Abort
    handles resolve to, the deadlines of the calls and the contents of
    the two uninitialised locals change nothing, provided the retry
    bound is positive. *)
Theorem Commit_depends_on_clock_and_reply_codes
    env1 env2 COMMIT_RETRIES T1 A1 T2 A2 st :
  0 < COMMIT_RETRIES →
  (∀ m, clock env1 m = clock env2 m) →
  (∀ k p, vote env1 k p = vote env2 k p) →
  Commit env1 COMMIT_RETRIES T1 A1 st = Commit env2 COMMIT_RETRIES T2 A2 st ∧
  ∀ timestamp, Prepare env1 T1 timestamp st = Prepare env2 T2 timestamp st.
Proof.
  intros Hpos Hclock Hvote. split; [|intros; by apply Prepare_ext].
  rewrite !Commit_run.
  destruct (Z.to_nat (COMMIT_RETRIES - 0)) as [|n] eqn:Hn; [lia|].
  rewrite Hclock.
  by rewrite (retry_loop_ext env1 env2 T1 T2 n (stack_status env1)
                (stack_status env2)).
Qed.

(** ** The constructor *)

Lemma draw_client_id_first draws j fuel i :
  (i ≤ j < i + fuel)%nat →
  (∀ m, (i ≤ m < j)%nat → draws m = 0) →
  draws j ≠ 0 →
  draw_client_id draws i fuel = Some (draws j).
Proof.
  revert i. induction fuel as [|fuel IH]; intros i Hij Hzero Hj; [lia|].
  simpl. destruct (decide (draws i = 0)) as [Hi|Hi].
  - destruct (decide (i = j)) as [->|Hne]; [done|].
    apply IH; [lia| |done]. intros m Hm. apply Hzero. lia.
  - destruct (decide (i = j)) as [->|Hne]; [done|].
    destruct Hi. apply Hzero. lia.
Qed.

(** X12: the constructor keeps drawing until the random source gives a
    value other than 0 and takes the first such value as the client id.
    The transaction id starts at the client id rounded down to a multiple
    of 10000, so that it is at most the client id and less than 10000
    below it; the participant set is empty. *)
Theorem constructor_fields draws j fuel nShards :
  (j < fuel)%nat →
  (∀ m, (m < j)%nat → draws m = 0) →
  0 < draws j →
  ∃ c,
    Client_new draws fuel nShards = Some c ∧
    client_id c = draws j ∧ client_id c ≠ 0 ∧
    nshards c = nShards ∧
    participants c = ∅ ∧
    t_id c mod 10000 = 0 ∧
    t_id c ≤ client_id c < t_id c + 10000.
Proof.
  intros Hfuel Hzero Hj. unfold Client_new.
  rewrite (draw_client_id_first draws j fuel 0); [|lia| |lia].
  2:{ intros m Hm. apply Hzero. lia. }
  eexists. split; [done|]. simpl.
  split; [done|]. split; [lia|]. split; [done|]. split; [done|].
  split; [apply Z.mod_mul; lia|].
  pose proof (Z.div_mod (draws j) 10000 ltac:(lia)) as Hdm.
  pose proof (Z.mod_pos_bound (draws j) 10000 ltac:(lia)). lia.
Qed.

(** ** The further properties at concrete runs *)

Lemma Prepare_sends_all_then_awaits_all_witness :
  let st := Scenario.coordinator {[0; 1]} in
  let ts := mkTimestamp 10 70001 in
  participants (client st) ≠ ∅ ∧
  no_fail Scenario.slow 0 {[0; 1]} ∧
  all_known Scenario.slow 0 {[0; 1]} ∧
  ∃ status ts' st',
    Prepare Scenario.slow 1000 ts st = Done (status, ts') st' ∧
    (status = REPLY_OK ∨ status = REPLY_RETRY) ∧
    log (world st')
    = log (world st) ++ ((λ p, EvPrepare p ts) <$> in_order {[0; 1]})
        ++ waits_of OpPrepare (in_order {[0; 1]})
        ++ (if decide (status = REPLY_RETRY) then [EvClock 80] else []).
Proof.
  intros st ts.
  assert (HP : participants (client st) ≠ ∅).
  { intros H. assert (H0 : 0 ∈ ({[0; 1]} : gset Z)) by set_solver.
    simpl in H. rewrite H in H0. by apply not_elem_of_empty in H0. }
  assert (Hnf : no_fail Scenario.slow 0 {[0; 1]}).
  { intros p _. unfold vote, Scenario.slow. simpl. by case_decide. }
  assert (Hk : all_known Scenario.slow 0 {[0; 1]}).
  { intros p _. unfold vote, Scenario.slow. simpl. by case_decide. }
  split; [exact HP|]. split; [exact Hnf|]. split; [exact Hk|].
  exact (Prepare_sends_all_then_awaits_all Scenario.slow 1000 ts st HP Hnf Hk).
Defined.

Lemma Prepare_first_decisive_vote_witness :
  let st := Scenario.coordinator {[0; 1; 2; 3]} in
  let ts := mkTimestamp 10 70001 in
  in_order {[0; 1; 2; 3]} = [0; 1] ++ 2 :: [3] ∧
  Forall (λ q, vote Worlds.mixed 0 q ≠ REPLY_FAIL
               ∧ vote Worlds.mixed 0 q ≠ REPLY_OTHER) [0; 1] ∧
  vote Worlds.mixed 0 2 = REPLY_FAIL ∧
  vote Worlds.mixed 0 3 = REPLY_OTHER ∧
  ∃ st',
    Prepare Worlds.mixed 1000 ts st = Done (REPLY_FAIL, ts) st' ∧
    log (world st')
    = log (world st) ++ ((λ q, EvPrepare q ts) <$> [0; 1; 2; 3])
        ++ waits_of OpPrepare [0; 1; 2].
Proof.
  intros st ts.
  assert (Hsplit : in_order (participants (client st)) = [0; 1] ++ 2 :: [3]).
  { vm_compute. reflexivity. }
  assert (Hl : Forall (λ q, vote Worlds.mixed 0 q ≠ REPLY_FAIL
                            ∧ vote Worlds.mixed 0 q ≠ REPLY_OTHER) [0; 1]).
  { repeat constructor; discriminate. }
  destruct (Prepare_first_decisive_vote Worlds.mixed 1000 ts st [0; 1] 2 [3]
              Hsplit Hl (or_introl eq_refl)) as (st' & Hrun & _ & _ & Hlog).
  split; [exact Hsplit|]. split; [exact Hl|].
  split; [reflexivity|]. split; [reflexivity|].
  exists st'. split; [exact Hrun|exact Hlog].
Defined.

Lemma Commit_stamps_with_the_latest_clock_witness :
  let st := Scenario.coordinator {[0; 1; 2]} in
  (∀ m, 0 ≤ clock Scenario.D m) ∧
  ∃ evs,
    log (world (final (Commit Scenario.D 3 1000 1000 st)))
    = log (world st) ++ evs ∧
    stamped 70001 0 evs.
Proof.
  intros st.
  assert (Hclock : ∀ m, 0 ≤ clock Scenario.D m) by (intros m; discriminate).
  split; [exact Hclock|].
  exact (Commit_stamps_with_the_latest_clock Scenario.D 3 1000 1000 st 0 Hclock).
Defined.

Lemma Commit_returns_when_votes_are_known_witness :
  let st := Scenario.coordinator {[0; 1; 2]} in
  0 < 3 ∧
  participants (client st) ≠ ∅ ∧
  (∀ k, (rounds (world st) ≤ k)%nat → all_known Scenario.D k {[0; 1; 2]}) ∧
  ∃ b st', Commit Scenario.D 3 1000 1000 st = Done b st'.
Proof.
  intros st.
  assert (HP : participants (client st) ≠ ∅).
  { intros H. assert (H0 : 0 ∈ ({[0; 1; 2]} : gset Z)) by set_solver.
    simpl in H. rewrite H in H0. by apply not_elem_of_empty in H0. }
  assert (Hk : ∀ k, (rounds (world st) ≤ k)%nat
                    → all_known Scenario.D k {[0; 1; 2]}).
  { intros k _ p _. reflexivity. }
  split; [reflexivity|]. split; [exact HP|]. split; [exact Hk|].
  exact (Commit_returns_when_votes_are_known Scenario.D 3 1000 1000 st
           eq_refl HP Hk).
Defined.

Lemma Begin_numbers_the_transactions_witness :
  let st := Scenario.coordinator {[0; 2]} in
  0 ≤ t_id (client st) < 2 ^ 64 ∧
  ∃ st',
    begins 3 st = Done tt st' ∧
    world st' = world st ∧
    t_id (client st') = 70003 ∧
    participants (client st') = ∅.
Proof.
  intros st.
  assert (Ht : 0 ≤ t_id (client st) < 2 ^ 64) by (split; [discriminate|reflexivity]).
  destruct (Begin_numbers_the_transactions 3 st Ht)
    as (st' & Hrun & Hw & _ & Htid & HP).
  split; [exact Ht|]. exists st'.
  split; [exact Hrun|]. split; [exact Hw|].
  split; [exact (Htid eq_refl)|]. apply HP. discriminate.
Defined.

Lemma Commit_depends_on_clock_and_reply_codes_witness :
  let st := Scenario.coordinator {[0; 1]} in
  0 < 3 ∧
  (∀ m, clock Scenario.C m = clock Worlds.C_other m) ∧
  (∀ k p, vote Scenario.C k p = vote Worlds.C_other k p) ∧
  proposal Scenario.C 0 0 ≠ proposal Worlds.C_other 0 0 ∧
  Commit Scenario.C 3 1000 1000 st = Commit Worlds.C_other 3 500 250 st.
Proof.
  intros st.
  assert (Hclock : ∀ m, clock Scenario.C m = clock Worlds.C_other m)
    by reflexivity.
  assert (Hvote : ∀ k p, vote Scenario.C k p = vote Worlds.C_other k p).
  { intros k p. unfold vote, Scenario.C, Worlds.C_other. simpl.
    by case_decide. }
  split; [reflexivity|]. split; [exact Hclock|]. split; [exact Hvote|].
  split; [discriminate|].
  exact (proj1 (Commit_depends_on_clock_and_reply_codes Scenario.C
                  Worlds.C_other 3 1000 1000 500 250 st eq_refl Hclock Hvote)).
Defined.

Lemma constructor_fields_witness :
  (2 < 5)%nat ∧
  (∀ m, (m < 2)%nat → Worlds.draws m = 0) ∧
  0 < Worlds.draws 2 ∧
  ∃ c,
    Client_new Worlds.draws 5 3 = Some c ∧
    client_id c = 1234567 ∧
    t_id c = 1230000 ∧
    participants c = ∅.
Proof.
  assert (Hzero : ∀ m, (m < 2)%nat → Worlds.draws m = 0).
  { intros [|[|m]] Hm; [reflexivity|reflexivity|lia]. }
  destruct (constructor_fields Worlds.draws 2 5 3 ltac:(lia) Hzero eq_refl)
    as (c & Hnew & Hid & _ & _ & HP & _).
  split; [lia|]. split; [exact Hzero|]. split; [reflexivity|].
  exists c. split; [exact Hnew|]. split; [exact Hid|]. split; [|exact HP].
  unfold Client_new in Hnew. simpl in Hnew. by injection Hnew as <-.
Defined.
